(** * Environment-variable collections of the Theia core

    A shallow embedding of
    [packages/core/src/node/env-variables/env-variables-server.ts] and of the
    interfaces of [common/env-variables] it implements: the registry of
    per-extension collections ([EnvVariablesServerImpl]), the merge of the
    registry into one collection
    ([MergedEnvironmentVariableCollectionImpl]'s constructor) and the
    application of a merged collection to a process environment
    ([applyToProcessEnvironment]).

    Conventions of the embedding.
    - A JavaScript [Map] is insertion-ordered: it is an association list in
      iteration order ([OrderedMap]), because the merge observes that order.
    - A plain object ([{}], the environment passed to
      [applyToProcessEnvironment], [this.envs]) is the association list of
      its own properties in creation order, read and written as JavaScript
      does: a key that is not an own property reads through to
      [Object.prototype], an assignment to [__proto__] goes to the setter of
      [Object.prototype], and [Object.keys] lists array indices first.
    - [isWindows] (from [common/os]) and [String.prototype.toLowerCase] are
      parameters of the development. *)

From Stdlib Require Import List String Ascii Bool Arith NArith Lia Permutation.
Import ListNotations.
Open Scope string_scope.
Open Scope list_scope.

(** ** Insertion-ordered dictionaries *)

Section OrderedMap.
Context {V : Type}.

(** Entries in iteration order; the keys of a map built by [map_set] from
    the empty map are pairwise distinct ([map_wf]). *)
Definition OrderedMap : Type := list (string * V).

Definition map_keys (m : OrderedMap) : list string := List.map fst m.

(** [m.get(k)], [o[k]]: [None] is JavaScript's [undefined]. *)
Fixpoint map_get (k : string) (m : OrderedMap) : option V :=
  match m with
  | [] => None
  | (k', v) :: t => if String.eqb k k' then Some v else map_get k t
  end.

(** [m.set(k, v)], [o[k] = v]: an existing key keeps its position, a new key
    goes last. *)
Fixpoint map_set (k : string) (v : V) (m : OrderedMap) : OrderedMap :=
  match m with
  | [] => [(k, v)]
  | (k', v') :: t =>
      if String.eqb k k' then (k', v) :: t else (k', v') :: map_set k v t
  end.

(** [m.delete(k)]. *)
Fixpoint map_delete (k : string) (m : OrderedMap) : OrderedMap :=
  match m with
  | [] => []
  | (k', v') :: t =>
      if String.eqb k k' then t else (k', v') :: map_delete k t
  end.

(** [new Map(entries)]: the entries are set one after the other. *)
Definition map_of_entries (entries : list (string * V)) : OrderedMap :=
  fold_left (fun m kv => map_set (fst kv) (snd kv) m) entries [].

Definition map_wf (m : OrderedMap) : Prop := NoDup (map_keys m).

End OrderedMap.

Arguments OrderedMap V : clear implicits.

(** ** Data model ([common/env-variables]) *)

Inductive EnvironmentVariableMutatorType : Type :=
| Replace
| Append
| Prepend.

Definition type_eqb (a b : EnvironmentVariableMutatorType) : bool :=
  match a, b with
  | Replace, Replace | Append, Append | Prepend, Prepend => true
  | _, _ => false
  end.

Module EnvironmentVariableMutator.
Record t : Type := Build { value : string; type : EnvironmentVariableMutatorType }.
End EnvironmentVariableMutator.

Module ExtensionOwnedEnvironmentVariableMutator.
Record t : Type := Build {
  extensionIdentifier : string;
  value : string;
  type : EnvironmentVariableMutatorType
}.
End ExtensionOwnedEnvironmentVariableMutator.

Module Mutator := EnvironmentVariableMutator.
Module Owned := ExtensionOwnedEnvironmentVariableMutator.

Module EnvironmentVariableCollectionWithPersistence.
Record t : Type := Build {
  persistent : bool;
  map : OrderedMap Mutator.t
}.
End EnvironmentVariableCollectionWithPersistence.

Module Collection := EnvironmentVariableCollectionWithPersistence.

Definition SerializableEnvironmentVariableCollection : Type :=
  list (string * Mutator.t).

(** ** The merge: [MergedEnvironmentVariableCollectionImpl]'s constructor *)

Module MergedEnvironmentVariableCollectionImpl.

(** The class has the single field [map]. *)
Definition t : Type := OrderedMap (list Owned.t).

(** [entry.length > 0 && entry[0].type === EnvironmentVariableMutatorType.Replace] *)
Definition first_is_replace (entry : list Owned.t) : bool :=
  match entry with
  | [] => false
  | e0 :: _ => type_eqb (Owned.type e0) Replace
  end.

(** One turn of the [while] loop, for the iterator result
    [next.value = [variable, mutator]].  The array [entry] is shared with the
    map, so [entry.unshift] is a write to the map at [variable]. *)
Definition visit (extensionIdentifier : string) (this_map : t)
    (next_value : string * Mutator.t) : t :=
  let variable := fst next_value in
  let '(entry, this_map) :=
    match map_get variable this_map with
    | Some entry => (entry, this_map)
    | None => ([], map_set variable [] this_map)
    end in
  if first_is_replace entry then this_map
  else
    let mutator := snd next_value in
    map_set variable
      (Owned.Build extensionIdentifier (Mutator.value mutator) (Mutator.type mutator)
         :: entry)
      this_map.

(** The body of [collections.forEach]: the [while] loop over
    [collection.map.entries()]. *)
Definition visit_collection (this_map : t)
    (kv : string * Collection.t) : t :=
  fold_left (visit (fst kv)) (Collection.map (snd kv)) this_map.

(** The constructor started on a map that already holds [this_map]. *)
Definition construct_from (this_map : t)
    (collections : OrderedMap Collection.t) : t :=
  fold_left visit_collection collections this_map.

Definition constructor (collections : OrderedMap Collection.t) : t :=
  construct_from [] collections.

End MergedEnvironmentVariableCollectionImpl.

Module Merged := MergedEnvironmentVariableCollectionImpl.

(** ** Plain objects *)

(** What a read of a plain object finds on [Object.prototype] when the key
    is not an own property (ECMAScript, Object.prototype with the additions
    of Annex B): the function [Object] under [constructor], a built-in
    method under its name, and under [__proto__] (a getter) the prototype of
    the object, which is [Object.prototype] itself. *)
Inductive Inherited : Type :=
| ObjectFunction
| PrototypeFunction (name : string)
| ObjectPrototype.

Definition prototype_functions : list string :=
  ["__defineGetter__"; "__defineSetter__"; "hasOwnProperty";
   "__lookupGetter__"; "__lookupSetter__"; "isPrototypeOf";
   "propertyIsEnumerable"; "toString"; "valueOf"; "toLocaleString"].

Definition Object_prototype (k : string) : option Inherited :=
  if String.eqb k "constructor" then Some ObjectFunction
  else if String.eqb k "__proto__" then Some ObjectPrototype
  else if existsb (String.eqb k) prototype_functions then Some (PrototypeFunction k)
  else None.

(** The string that such a value becomes when it is concatenated or used as
    a property key: the text of a built-in function as Node prints it, and
    ["[object Object]"] for [Object.prototype]. *)
Definition Inherited_toString (i : Inherited) : string :=
  match i with
  | ObjectFunction => "function Object() { [native code] }"
  | PrototypeFunction name => ("function " ++ name ++ "() { [native code] }")%string
  | ObjectPrototype => "[object Object]"
  end.

(** The result of [o[k]]. *)
Inductive Read (V : Type) : Type :=
| Own (v : V)
| FromPrototype (i : Inherited)
| Undefined.

Arguments Own {V} v.
Arguments FromPrototype {V} i.
Arguments Undefined {V}.

(** [o[k]] on a plain object with the own properties [o]. *)
Definition obj_get {V : Type} (k : string) (o : OrderedMap V) : Read V :=
  match map_get k o with
  | Some v => Own v
  | None =>
      match Object_prototype k with
      | Some i => FromPrototype i
      | None => Undefined
      end
  end.

(** [o[k] = v] for a primitive [v] (a string): an own property is updated;
    otherwise the assignment creates an own property, except for
    [__proto__], whose setter on [Object.prototype] ignores a primitive. *)
Definition obj_set {V : Type} (k : string) (v : V) (o : OrderedMap V)
  : OrderedMap V :=
  match map_get k o with
  | Some _ => map_set k v o
  | None => if String.eqb k "__proto__" then o else map_set k v o
  end.

(** An array index: the canonical decimal text of an integer from 0 to
    2^32 - 2. *)
Definition digit_of (c : ascii) : option N :=
  let n := N_of_ascii c in
  if (N.leb 48 n && N.leb n 57)%bool then Some (n - 48)%N else None.

Fixpoint decimal (s : string) (acc : N) : option N :=
  match s with
  | EmptyString => Some acc
  | String c s' =>
      match digit_of c with
      | Some d => decimal s' (acc * 10 + d)%N
      | None => None
      end
  end.

Definition array_index (s : string) : option N :=
  match s with
  | EmptyString => None
  | String c s' =>
      if (Ascii.eqb c "0" && negb (String.eqb s' ""))%bool then None
      else
        match decimal s 0 with
        | Some n => if N.leb n 4294967294 then Some n else None
        | None => None
        end
  end.

Definition is_array_index (s : string) : bool :=
  match array_index s with
  | Some _ => true
  | None => false
  end.

Fixpoint insert_index (n : N) (k : string) (l : list (N * string))
  : list (N * string) :=
  match l with
  | [] => [(n, k)]
  | (n', k') :: t =>
      if N.leb n n' then (n, k) :: l else (n', k') :: insert_index n k t
  end.

Definition sorted_indices (ks : list string) : list (N * string) :=
  fold_right
    (fun k acc =>
       match array_index k with
       | Some n => insert_index n k acc
       | None => acc
       end)
    [] ks.

(** [Object.keys(o)]: the array indices in ascending order, then the other
    keys in creation order. *)
Definition Object_keys {V : Type} (o : OrderedMap V) : list string :=
  List.map snd (sorted_indices (map_keys o))
  ++ filter (fun k => negb (is_array_index k)) (map_keys o).

(** ** Applying a merged collection: [applyToProcessEnvironment] *)

(** [{ [key: string]: string | null }], a plain object: its own properties,
    the value [None] being [null]. *)
Definition ProcessEnv : Type := OrderedMap (option string).

(** A value that is a string or a member of [Object.prototype]. *)
Inductive KeyValue : Type :=
| KeyString (s : string)
| KeyInherited (i : Inherited).

(** [x || variable] for [x = lowerToActualVariableNames[...]]: [undefined]
    and the empty string are falsy, every other value is truthy. *)
Definition or_variable (x : Read string) (variable : string) : KeyValue :=
  match x with
  | Own s => if String.eqb s "" then KeyString variable else KeyString s
  | FromPrototype i => KeyInherited i
  | Undefined => KeyString variable
  end.

(** The property key that a value used in [env[...]] stands for. *)
Definition ToPropertyKey (v : KeyValue) : string :=
  match v with
  | KeyString s => s
  | KeyInherited i => Inherited_toString i
  end.

(** The string that [env[k] || ''] contributes to a concatenation: [null],
    [undefined] and the empty string give the empty string, an inherited
    member its text. *)
Definition or_empty (x : Read (option string)) : string :=
  match x with
  | Own (Some s) => s
  | Own None => ""
  | FromPrototype i => Inherited_toString i
  | Undefined => ""
  end.

(** The body of [mutators.forEach]: the [switch] on the mutator's type. *)
Definition applyMutator (actualVariable : KeyValue) (env : ProcessEnv)
    (mutator : Owned.t) : ProcessEnv :=
  let key := ToPropertyKey actualVariable in
  match Owned.type mutator with
  | Append =>
      obj_set key
        (Some (or_empty (obj_get key env) ++ Owned.value mutator)%string) env
  | Prepend =>
      obj_set key
        (Some (Owned.value mutator ++ or_empty (obj_get key env))%string) env
  | Replace =>
      obj_set key (Some (Owned.value mutator)) env
  end.

Section ApplyToProcessEnvironment.

(** [isWindows] of [common/os]. *)
Variable isWindows : bool.
(** [String.prototype.toLowerCase]. *)
Variable toLowerCase : string -> string.

(** [lowerToActualVariableNames]: left [undefined] unless [isWindows], else
    a plain object filled from [Object.keys(env)] in order, a later key
    overwriting an earlier one of the same lower-casing. *)
Definition lowerToActualVariableNames (env : ProcessEnv)
  : option (OrderedMap string) :=
  if isWindows
  then Some (fold_left (fun o e => obj_set (toLowerCase e) e o) (Object_keys env) [])
  else None.

(** [isWindows ? lowerToActualVariableNames![variable.toLowerCase()] || variable : variable] *)
Definition actualVariable (lowerToActual : option (OrderedMap string))
    (variable : string) : KeyValue :=
  if isWindows then
    match lowerToActual with
    | Some o => or_variable (obj_get (toLowerCase variable) o) variable
    | None => KeyString variable
    end
  else KeyString variable.

(** The key of [env] that [variable] is written to. *)
Definition resolve (env : ProcessEnv) (variable : string) : string :=
  ToPropertyKey (actualVariable (lowerToActualVariableNames env) variable).

Definition applyToProcessEnvironment (this_map : Merged.t) (env : ProcessEnv)
  : ProcessEnv :=
  let lowerToActual := lowerToActualVariableNames env in
  fold_left
    (fun env kv =>
       let variable := fst kv in
       let mutators := snd kv in
       let actual := actualVariable lowerToActual variable in
       fold_left (applyMutator actual) mutators env)
    this_map env.

End ApplyToProcessEnvironment.


(** Lower-casing of the letters [A]-[Z]; it agrees with
    [String.prototype.toLowerCase] on ASCII strings and is used for the
    concrete scenarios. *)
Definition toLowerCase_ascii_char (c : ascii) : ascii :=
  let n := nat_of_ascii c in
  if Nat.leb 65 n && Nat.leb n 90 then ascii_of_nat (n + 32) else c.

Fixpoint toLowerCase_ascii (s : string) : string :=
  match s with
  | EmptyString => EmptyString
  | String c s' => String (toLowerCase_ascii_char c) (toLowerCase_ascii s')
  end.

(** ** The registry: [EnvVariablesServerImpl] *)

Module EnvVariablesServerImpl.

(** The two fields of the class that the collection methods read and write. *)
Record t : Type := Build {
  collections : OrderedMap Collection.t;
  mergedCollection : Merged.t
}.

(** Methods are state transformers on [this]. *)
Definition M (A : Type) : Type := t -> A * t.

Definition ret {A : Type} (a : A) : M A := fun this => (a, this).

Definition bind {A B : Type} (c : M A) (k : A -> M B) : M B :=
  fun this => let (a, this') := c this in k a this'.

Notation "x <- c ;; k" := (bind c (fun x => k))
  (at level 61, c at next level, right associativity).
Notation "c ;;; k" := (bind c (fun _ => k))
  (at level 61, right associativity).

Definition get_collections : M (OrderedMap Collection.t) :=
  fun this => (collections this, this).

Definition put_collections (c : OrderedMap Collection.t) : M unit :=
  fun this => (tt, Build c (mergedCollection this)).

Definition put_mergedCollection (m : Merged.t) : M unit :=
  fun this => (tt, Build (collections this) m).

Definition resolveMergedCollection : M Merged.t :=
  c <- get_collections ;;
  ret (Merged.constructor c).

Definition updateCollections : M unit :=
  m <- resolveMergedCollection ;;
  put_mergedCollection m.

Definition set (extensionIdentifier : string) (persistent : bool)
    (collection : SerializableEnvironmentVariableCollection) : M unit :=
  let translatedCollection :=
    Collection.Build persistent (map_of_entries collection) in
  c <- get_collections ;;
  put_collections (map_set extensionIdentifier translatedCollection c) ;;;
  updateCollections.

Definition delete (extensionIdentifier : string) : M unit :=
  c <- get_collections ;;
  put_collections (map_delete extensionIdentifier c) ;;;
  updateCollections.

(** The class constructor: an empty registry and its merged collection. *)
Definition constructor : t :=
  snd (updateCollections (Build [] [])).

(** The calls a client can make on the registry, and the server they leave
    behind. *)
Inductive Call : Type :=
| CallSet (extensionIdentifier : string) (persistent : bool)
    (collection : SerializableEnvironmentVariableCollection)
| CallDelete (extensionIdentifier : string).

Definition call (c : Call) : M unit :=
  match c with
  | CallSet i p e => set i p e
  | CallDelete i => delete i
  end.

Definition run_from (this : t) (calls : list Call) : t :=
  fold_left (fun this c => snd (call c this)) calls this.

Definition run (calls : list Call) : t := run_from constructor calls.

End EnvVariablesServerImpl.

Module Server := EnvVariablesServerImpl.

(** ** Vocabulary of the statements *)

Definition is_replace (o : Owned.t) : bool := type_eqb (Owned.type o) Replace.

(** A contributor's mutator with its provenance. *)
Definition tag (extensionIdentifier : string) (m : Mutator.t) : Owned.t :=
  Owned.Build extensionIdentifier (Mutator.value m) (Mutator.type m).

(** The entry of a variable, an absent entry read as the empty list. *)
Definition entry_of (variable : string) (m : Merged.t) : list Owned.t :=
  match map_get variable m with
  | Some entry => entry
  | None => []
  end.

(** Every pair of a collection's iteration whose key is [variable], tagged,
    in the order the constructor meets them. *)
Definition contributions_of (variable : string) (kv : string * Collection.t)
  : list Owned.t :=
  flat_map
    (fun e => if String.eqb (fst e) variable then [tag (fst kv) (snd e)] else [])
    (Collection.map (snd kv)).

Definition contributions (variable : string)
    (collections : OrderedMap Collection.t) : list Owned.t :=
  flat_map (contributions_of variable) collections.

(** The tagged mutators of the contributors that have a mutator for
    [variable], in registry order. *)
Definition mutators_for (variable : string)
    (collections : OrderedMap Collection.t) : list Owned.t :=
  flat_map
    (fun kv =>
       match map_get variable (Collection.map (snd kv)) with
       | Some m => [tag (fst kv) m]
       | None => []
       end)
    collections.

(** Every collection of the registry is a [Map]: its keys are distinct. *)
Definition collections_wf (collections : OrderedMap Collection.t) : Prop :=
  Forall (fun kv => map_wf (Collection.map (snd kv))) collections.

(** No contributor's mutator for [variable] is a [Replace]. *)
Definition no_replace_for (variable : string)
    (collections : OrderedMap Collection.t) : Prop :=
  forall kv m, In kv collections ->
    map_get variable (Collection.map (snd kv)) = Some m ->
    Mutator.type m <> Replace.

(** The constructor's loops once more, as relations between [this.map]
    before and after, with one rule for each path through the body of the
    [while] loop: the iterator is done; the entry exists and its head is a
    Replace ([continue]); the entry exists and the mutator is unshifted; the
    entry is created and the mutator is unshifted. *)
Inductive while_loop (extensionIdentifier : string)
  : list (string * Mutator.t) -> Merged.t -> Merged.t -> Prop :=
| while_done this_map :
    while_loop extensionIdentifier [] this_map this_map
| while_continue variable mutator rest this_map entry result :
    map_get variable this_map = Some entry ->
    Merged.first_is_replace entry = true ->
    while_loop extensionIdentifier rest this_map result ->
    while_loop extensionIdentifier ((variable, mutator) :: rest) this_map result
| while_unshift variable mutator rest this_map entry result :
    map_get variable this_map = Some entry ->
    Merged.first_is_replace entry = false ->
    while_loop extensionIdentifier rest
      (map_set variable (tag extensionIdentifier mutator :: entry) this_map)
      result ->
    while_loop extensionIdentifier ((variable, mutator) :: rest) this_map result
| while_create variable mutator rest this_map result :
    map_get variable this_map = None ->
    while_loop extensionIdentifier rest
      (map_set variable [tag extensionIdentifier mutator]
         (map_set variable [] this_map))
      result ->
    while_loop extensionIdentifier ((variable, mutator) :: rest) this_map result.

Inductive forEach_loop
  : OrderedMap Collection.t -> Merged.t -> Merged.t -> Prop :=
| forEach_done this_map : forEach_loop [] this_map this_map
| forEach_next extensionIdentifier collection rest this_map middle result :
    while_loop extensionIdentifier (Collection.map collection) this_map middle ->
    forEach_loop rest middle result ->
    forEach_loop ((extensionIdentifier, collection) :: rest) this_map result.

(** A run of the constructor on [collections] that ends with [result]. *)
Definition constructs (collections : OrderedMap Collection.t)
    (result : Merged.t) : Prop :=
  forEach_loop collections [] result.

(** What one arriving mutator does to an entry. *)
Definition push (x : Owned.t) (entry : list Owned.t) : list Owned.t :=
  if Merged.first_is_replace entry then entry else x :: entry.

Definition pushes (l : list Owned.t) (entry : option (list Owned.t))
  : option (list Owned.t) :=
  fold_left
    (fun e x => Some (push x match e with Some entry => entry | None => [] end))
    l entry.

(** The arrivals up to and including the first [Replace]. *)
Fixpoint upto_replace (l : list Owned.t) : list Owned.t :=
  match l with
  | [] => []
  | x :: t => if is_replace x then [x] else x :: upto_replace t
  end.

(** Whether [o[k] = v] stores [v]: always, except for a [__proto__] that is
    not an own property. *)
Definition writable {V : Type} (k : string) (o : OrderedMap V) : bool :=
  match map_get k o with
  | Some _ => true
  | None => negb (String.eqb k "__proto__")
  end.

(** What a key reads as after one mutator was written to it, given what it
    read as before. *)
Definition mutated_value (current : Read (option string)) (m : Owned.t)
  : Read (option string) :=
  match Owned.type m with
  | Append => Own (Some (or_empty current ++ Owned.value m)%string)
  | Prepend => Own (Some (Owned.value m ++ or_empty current)%string)
  | Replace => Own (Some (Owned.value m))
  end.

(** The mutators written to the key [k] of [env], in the order
    [applyToProcessEnvironment] meets them. *)
Definition writes_to (isWindows : bool) (toLowerCase : string -> string)
    (env : ProcessEnv) (k : string) (m : Merged.t) : list Owned.t :=
  flat_map
    (fun kv =>
       if String.eqb (resolve isWindows toLowerCase env (fst kv)) k
       then snd kv else [])
    m.

(** [applyToProcessEnvironment] with the table of lower-cased names held
    fixed while the environment changes. *)
Definition apply_with (isWindows : bool) (toLowerCase : string -> string)
    (lowerToActual : option (OrderedMap string)) (this_map : Merged.t)
    (env : ProcessEnv) : ProcessEnv :=
  fold_left
    (fun env kv =>
       fold_left
         (applyMutator (actualVariable isWindows toLowerCase lowerToActual (fst kv)))
         (snd kv) env)
    this_map env.

(** ** The process environment read at start-up: [envs] *)

Module EnvVariable.
Record t : Type := Build { name : string; value : option string }.
End EnvVariable.

(** [process.env]: [{ [key: string]: string | undefined }], the value
    [None] being [undefined]; the list is in the order of
    [Object.keys(process.env)]. *)
Definition NodeProcessEnv : Type := OrderedMap (option string).

(** [prEnv[key]] for a key that [Object.keys(prEnv)] gave. *)
Definition prop_read (k : string) (o : NodeProcessEnv) : option string :=
  match map_get k o with
  | Some v => v
  | None => None
  end.

(** [this.envs], a plain object that holds objects: its own properties, and
    the object that an assignment to [__proto__] made its prototype ([None]
    while the prototype is [Object.prototype]). *)
Module Envs.
Record t : Type := Build {
  own : OrderedMap EnvVariable.t;
  prototype : option EnvVariable.t
}.
End Envs.

(** [this.envs[keyName] = variable]: the setter of [__proto__] takes an
    object as the new prototype. *)
Definition envs_set (keyName : string) (variable : EnvVariable.t)
    (envs : Envs.t) : Envs.t :=
  match map_get keyName (Envs.own envs) with
  | Some _ =>
      Envs.Build (map_set keyName variable (Envs.own envs)) (Envs.prototype envs)
  | None =>
      if String.eqb keyName "__proto__"
      then Envs.Build (Envs.own envs) (Some variable)
      else Envs.Build (map_set keyName variable (Envs.own envs)) (Envs.prototype envs)
  end.

(** The result of [this.envs[key]]. *)
Inductive EnvsRead : Type :=
| ReadVariable (v : EnvVariable.t)
| ReadString (s : string)
| ReadPrototype (p : EnvVariable.t)
| ReadInherited (i : Inherited)
| ReadUndefined.

(** A read that no own property and no property of the prototype object
    answers: [Object.prototype]. *)
Definition envs_get_inherited (key : string) : EnvsRead :=
  match Object_prototype key with
  | Some i => ReadInherited i
  | None => ReadUndefined
  end.

(** [this.envs[key]]: an own property; else the [name] or [value] of the
    object that was made the prototype, or that object under [__proto__];
    else [Object.prototype]. *)
Definition envs_get (key : string) (envs : Envs.t) : EnvsRead :=
  match map_get key (Envs.own envs) with
  | Some v => ReadVariable v
  | None =>
      match Envs.prototype envs with
      | Some p =>
          if String.eqb key "name" then ReadString (EnvVariable.name p)
          else if String.eqb key "value" then
            match EnvVariable.value p with
            | Some s => ReadString s
            | None => ReadUndefined
            end
          else if String.eqb key "__proto__" then ReadPrototype p
          else envs_get_inherited key
      | None => envs_get_inherited key
      end
  end.

Section Envs.

Variable isWindows : bool.
Variable toLowerCase : string -> string.

(** The part of the class constructor that fills [this.envs] from
    [prEnv = process.env]. *)
Definition constructor_envs (prEnv : NodeProcessEnv) : Envs.t :=
  fold_left
    (fun envs key =>
       let keyName := if isWindows then toLowerCase key else key in
       envs_set keyName (EnvVariable.Build keyName (prop_read key prEnv)) envs)
    (map_keys prEnv) (Envs.Build [] None).

(** The name under which the constructor stores a key of [process.env], and
    the variable it stores. *)
Definition keyName_of (key : string) : string :=
  if isWindows then toLowerCase key else key.

Definition variable_of (prEnv : NodeProcessEnv) (key : string) : EnvVariable.t :=
  EnvVariable.Build (keyName_of key) (prop_read key prEnv).

(** [getVariables]: [Object.keys(this.envs).map(key => this.envs[key])]; the
    promise is modelled by the value it resolves to. *)
Definition getVariables (envs : Envs.t) : list EnvsRead :=
  List.map (fun key => envs_get key envs) (Object_keys (Envs.own envs)).

(** [getValue]. *)
Definition getValue (envs : Envs.t) (key : string) : EnvsRead :=
  let key := if isWindows then toLowerCase key else key in
  envs_get key envs.

End Envs.

(** ** Drives: [getDrives] and [filterHiddenPartitions] *)

Definition filterHiddenPartitions (path : string) : bool :=
  if String.eqb path "/private/var/vm" then false
  else if String.eqb path "/boot/efi" then false
  else true.

(** What [getDrives] reads of a drive that [drivelist.list()] returns. *)
Module Mountpoint.
Record t : Type := Build { path : string }.
End Mountpoint.

Module Drive.
Record t : Type := Build { mountpoints : list Mountpoint.t }.
End Drive.

(** [getDrives], for the list [drives] that [drivelist.list()] resolves to;
    [fileUri path] stands for [FileUri.create(path).toString()]. *)
Definition getDrives (fileUri : string -> string) (drives : list Drive.t)
  : list string :=
  fold_left
    (fun uris drive =>
       fold_left
         (fun uris mounpoint =>
            if filterHiddenPartitions (Mountpoint.path mounpoint)
            then uris ++ [fileUri (Mountpoint.path mounpoint)]
            else uris)
         (Drive.mountpoints drive) uris)
    drives [].

(** All the mount paths of the drives, in order. *)
Definition mount_paths (drives : list Drive.t) : list string :=
  flat_map (fun d => List.map Mountpoint.path (Drive.mountpoints d)) drives.

(** The strings of a list, one after the other. *)
Definition joined (l : list string) : string :=
  fold_right String.append "" l.

(** Every mutator that a contributor holds for [variable] is of type [ty]. *)
Definition all_of_type (ty : EnvironmentVariableMutatorType) (variable : string)
    (collections : OrderedMap Collection.t) : Prop :=
  forall kv m, In kv collections ->
    map_get variable (Collection.map (snd kv)) = Some m ->
    Mutator.type m = ty.

(** ** Scenarios of the specification, run on the embedding *)

Definition mut (ty : EnvironmentVariableMutatorType) (v : string) : Mutator.t :=
  Mutator.Build v ty.

Definition owned (i : string) (ty : EnvironmentVariableMutatorType) (v : string)
  : Owned.t :=
  Owned.Build i v ty.

Example scenario_append_append :
  let s := Server.run [Server.CallSet "ext1" false [("VAR", mut Append "1")];
                       Server.CallSet "ext2" false [("VAR", mut Append "2")]] in
  Server.mergedCollection s
  = [("VAR", [owned "ext2" Append "2"; owned "ext1" Append "1"])]
  /\ applyToProcessEnvironment false toLowerCase_ascii (Server.mergedCollection s) []
     = [("VAR", Some "21")].
Proof. split; reflexivity. Qed.

Example scenario_replace_append :
  let s := Server.run [Server.CallSet "ext1" false [("VAR", mut Replace "A")];
                       Server.CallSet "ext2" false [("VAR", mut Append "B")]] in
  Server.mergedCollection s = [("VAR", [owned "ext1" Replace "A"])]
  /\ applyToProcessEnvironment false toLowerCase_ascii (Server.mergedCollection s) []
     = [("VAR", Some "A")].
Proof. split; reflexivity. Qed.

Example scenario_append_replace_append :
  Server.mergedCollection
    (Server.run [Server.CallSet "B" false [("V", mut Append "b")];
                 Server.CallSet "A" false [("V", mut Replace "a")];
                 Server.CallSet "C" false [("V", mut Append "c")]])
  = [("V", [owned "A" Replace "a"; owned "B" Append "b"])].
Proof. reflexivity. Qed.

(** Setting a contributor again keeps its place in the registry: the order
    of the merge is the order of first registration. *)
Example scenario_set_again :
  Server.mergedCollection
    (Server.run [Server.CallSet "ext1" false [("VAR", mut Append "1")];
                 Server.CallSet "ext2" false [("VAR", mut Append "2")];
                 Server.CallSet "ext1" false [("VAR", mut Append "3")]])
  = [("VAR", [owned "ext2" Append "2"; owned "ext1" Append "3"])].
Proof. reflexivity. Qed.

Example scenario_windows_path :
  applyToProcessEnvironment true toLowerCase_ascii
    [("PATH", [owned "ext" Append ":/opt/bin"])] [("Path", Some "/usr/bin")]
  = [("Path", Some "/usr/bin:/opt/bin")].
Proof. reflexivity. Qed.

Example scenario_foo :
  applyToProcessEnvironment false toLowerCase_ascii
    [("FOO", [owned "e" Append "bar"])] [] = [("FOO", Some "bar")]
  /\ applyToProcessEnvironment false toLowerCase_ascii
    [("FOO", [owned "e" Append "bar"])] [("FOO", Some "x")] = [("FOO", Some "xbar")]
  /\ applyToProcessEnvironment false toLowerCase_ascii
    [("FOO", [owned "e" Prepend "bar"])] [("FOO", Some "x")] = [("FOO", Some "barx")].
Proof. repeat split; reflexivity. Qed.

(** ** Insertion-ordered dictionaries: lookup after update *)

Section OrderedMapFacts.
Context {V : Type}.
Implicit Types (m : OrderedMap V) (k : string) (v : V).

Lemma map_get_set m k k' v :
  map_get k' (map_set k v m) = if String.eqb k' k then Some v else map_get k' m.
Proof.
  induction m as [|[k0 v0] t IH]; simpl.
  - reflexivity.
  - destruct (String.eqb_spec k k0) as [->|Hk]; simpl.
    + destruct (String.eqb_spec k' k0); reflexivity.
    + rewrite IH. destruct (String.eqb_spec k' k0) as [->|]; [|reflexivity].
      destruct (String.eqb_spec k0 k); [congruence|reflexivity].
Qed.

Lemma map_get_set_same m k v : map_get k (map_set k v m) = Some v.
Proof. rewrite map_get_set, String.eqb_refl. reflexivity. Qed.

Lemma map_get_None m k : map_get k m = None <-> ~ In k (map_keys m).
Proof.
  induction m as [|[k0 v0] t IH]; simpl.
  - tauto.
  - destruct (String.eqb_spec k k0) as [->|Hk].
    + split; [discriminate|tauto].
    + rewrite IH. split; [intros H [E|I]; [congruence|tauto] | tauto].
Qed.

Lemma map_get_Some_In m k v : map_get k m = Some v -> In (k, v) m.
Proof.
  induction m as [|[k0 v0] t IH]; simpl; [discriminate|].
  destruct (String.eqb_spec k k0) as [->|Hk].
  - intros [= ->]. now left.
  - auto.
Qed.

Lemma map_get_In_keys m k v : map_get k m = Some v -> In k (map_keys m).
Proof.
  intros H. apply map_get_Some_In in H.
  unfold map_keys. apply in_map_iff. exists (k, v). auto.
Qed.

Lemma map_keys_set_present m k v :
  In k (map_keys m) -> map_keys (map_set k v m) = map_keys m.
Proof.
  induction m as [|[k0 v0] t IH]; simpl; [tauto|].
  destruct (String.eqb_spec k k0) as [->|Hk]; simpl; [reflexivity|].
  intros [E|I]; [congruence|]. now rewrite IH.
Qed.

Lemma map_keys_set_absent m k v :
  ~ In k (map_keys m) -> map_keys (map_set k v m) = map_keys m ++ [k].
Proof.
  induction m as [|[k0 v0] t IH]; simpl; [reflexivity|].
  destruct (String.eqb_spec k k0) as [->|Hk]; simpl; [tauto|].
  intros H. rewrite IH; tauto.
Qed.

Lemma map_keys_set_incl m k v k' :
  In k' (map_keys m) -> In k' (map_keys (map_set k v m)).
Proof.
  intros H. destruct (in_dec string_dec k (map_keys m)) as [I|N].
  - now rewrite map_keys_set_present.
  - rewrite map_keys_set_absent by assumption. apply in_or_app. now left.
Qed.

Lemma map_delete_absent m k : map_get k m = None -> map_delete k m = m.
Proof.
  induction m as [|[k0 v0] t IH]; simpl; [reflexivity|].
  destruct (String.eqb_spec k k0); [discriminate|].
  intros H. now rewrite IH.
Qed.

Lemma map_wf_set m k v : map_wf m -> map_wf (map_set k v m).
Proof.
  unfold map_wf. intros H.
  destruct (in_dec string_dec k (map_keys m)) as [I|N].
  - now rewrite map_keys_set_present.
  - rewrite map_keys_set_absent by assumption.
    apply NoDup_app; [assumption|constructor; [simpl; tauto|constructor]|].
    intros x Hx [<-|[]]. tauto.
Qed.

Lemma map_keys_delete_incl m k k' :
  In k' (map_keys (map_delete k m)) -> In k' (map_keys m).
Proof.
  induction m as [|[k0 v0] t IH]; simpl; [tauto|].
  destruct (String.eqb_spec k k0); simpl; tauto.
Qed.

Lemma map_wf_delete m k : map_wf m -> map_wf (map_delete k m).
Proof.
  unfold map_wf. induction m as [|[k0 v0] t IH]; simpl; [auto|].
  intros H. inversion H as [|? ? Hn Ht]; subst.
  destruct (String.eqb_spec k k0); [assumption|]. simpl.
  constructor; [|auto].
  intros I. apply Hn. eapply map_keys_delete_incl; eassumption.
Qed.

Lemma map_of_entries_wf (entries : list (string * V)) :
  map_wf (map_of_entries entries).
Proof.
  unfold map_of_entries.
  assert (G : forall m, map_wf m ->
            map_wf (fold_left (fun m kv => map_set (fst kv) (snd kv) m) entries m)).
  { induction entries as [|e t IH]; simpl; intros m Hm; [assumption|].
    apply IH, map_wf_set, Hm. }
  apply G. constructor.
Qed.

End OrderedMapFacts.

(** ** The merge, one variable at a time *)


Lemma entry_of_get variable m :
  entry_of variable m = match map_get variable m with Some e => e | None => [] end.
Proof. reflexivity. Qed.

(** What a turn of the loop does to the entry of each variable. *)
Lemma map_get_visit i m next V :
  map_get V (Merged.visit i m next)
  = if String.eqb V (fst next)
    then Some (push (tag i (snd next)) (entry_of (fst next) m))
    else map_get V m.
Proof.
  destruct next as [variable mutator]. unfold Merged.visit, push, entry_of. simpl.
  destruct (map_get variable m) as [entry|] eqn:G.
  - destruct (Merged.first_is_replace entry) eqn:R.
    + destruct (String.eqb_spec V variable) as [->|]; [|reflexivity]. exact G.
    + rewrite map_get_set. reflexivity.
  - simpl. rewrite map_get_set, map_get_set.
    destruct (String.eqb V variable); reflexivity.
Qed.

Lemma pushes_app l1 l2 e : pushes (l1 ++ l2) e = pushes l2 (pushes l1 e).
Proof. unfold pushes. apply fold_left_app. Qed.

Lemma map_get_visit_collection m kv V :
  map_get V (Merged.visit_collection m kv)
  = pushes (contributions_of V kv) (map_get V m).
Proof.
  destruct kv as [i c]. unfold Merged.visit_collection, contributions_of. simpl.
  generalize (Collection.map c) as l. intros l. revert m.
  induction l as [|e t IH]; intros m; simpl; [reflexivity|].
  rewrite IH, map_get_visit. rewrite (String.eqb_sym V (fst e)).
  destruct (String.eqb_spec (fst e) V) as [<-|]; simpl; [|reflexivity].
  reflexivity.
Qed.

Lemma map_get_construct_from cs m V :
  map_get V (Merged.construct_from m cs)
  = pushes (contributions V cs) (map_get V m).
Proof.
  unfold Merged.construct_from, contributions. revert m.
  induction cs as [|kv t IH]; intros m; simpl; [reflexivity|].
  rewrite IH, map_get_visit_collection, pushes_app. reflexivity.
Qed.

Lemma construct_from_app m cs1 cs2 :
  Merged.construct_from m (cs1 ++ cs2)
  = Merged.construct_from (Merged.construct_from m cs1) cs2.
Proof. unfold Merged.construct_from. apply fold_left_app. Qed.

Lemma pushes_Some l e :
  pushes l (Some e)
  = Some (if Merged.first_is_replace e then e else rev (upto_replace l) ++ e).
Proof.
  revert e. induction l as [|x t IH]; intros e.
  - simpl. destruct (Merged.first_is_replace e); reflexivity.
  - change (pushes (x :: t) (Some e)) with (pushes t (Some (push x e))).
    rewrite IH. unfold push.
    destruct (Merged.first_is_replace e) eqn:R.
    + rewrite R. reflexivity.
    + simpl. unfold is_replace.
      destruct (type_eqb (Owned.type x) Replace); simpl; [reflexivity|].
      now rewrite <- app_assoc.
Qed.

Lemma pushes_None l :
  pushes l None = match l with [] => None | _ => Some (rev (upto_replace l)) end.
Proof.
  destruct l as [|x t]; [reflexivity|].
  change (pushes (x :: t) None) with (pushes t (Some [x])).
  rewrite pushes_Some. simpl. unfold is_replace.
  destruct (type_eqb (Owned.type x) Replace); reflexivity.
Qed.

(** The entry of a variable is built from its arrivals alone: they are
    stacked until the first [Replace], which stays on top. *)
Lemma map_get_constructor cs V :
  map_get V (Merged.constructor cs)
  = match contributions V cs with
    | [] => None
    | l => Some (rev (upto_replace l))
    end.
Proof.
  unfold Merged.constructor. rewrite map_get_construct_from. simpl.
  rewrite pushes_None. destruct (contributions V cs); reflexivity.
Qed.

Lemma upto_replace_no_replace l :
  Forall (fun x => is_replace x = false) l -> upto_replace l = l.
Proof.
  induction 1 as [|x t Hx _ IH]; simpl; [reflexivity|].
  now rewrite Hx, IH.
Qed.

(** In an entry that the merge builds, only the head can be a [Replace]. *)
Lemma upto_replace_tail l :
  Forall (fun x => is_replace x = false) (tl (rev (upto_replace l))).
Proof.
  induction l as [|x t IH]; simpl; [constructor|].
  destruct (is_replace x) eqn:R; simpl; [constructor|].
  destruct (rev (upto_replace t)) as [|y r]; simpl in *; [constructor|].
  apply Forall_app. split; [assumption|]. constructor; [assumption|constructor].
Qed.

Lemma contributions_of_wf V kv :
  map_wf (Collection.map (snd kv)) ->
  contributions_of V kv
  = match map_get V (Collection.map (snd kv)) with
    | Some m => [tag (fst kv) m]
    | None => []
    end.
Proof.
  destruct kv as [i c]. unfold contributions_of, map_wf. simpl.
  generalize (Collection.map c) as l.
  induction l as [|[k0 v0] t IH]; simpl; intros H; [reflexivity|].
  inversion H as [|? ? Hn Ht]; subst.
  rewrite (String.eqb_sym V k0).
  destruct (String.eqb_spec k0 V) as [->|Hk]; simpl.
  - assert (E : forall l : OrderedMap Mutator.t, ~ In V (map_keys l) ->
              flat_map (fun e => if String.eqb (fst e) V then [tag i (snd e)] else []) l = []).
    { clear. induction l as [|[k1 v1] l IHl]; simpl; intros N; [reflexivity|].
      destruct (String.eqb_spec k1 V); [tauto|]. simpl. apply IHl. tauto. }
    now rewrite E.
  - apply IH. assumption.
Qed.

Lemma contributions_wf V cs :
  collections_wf cs -> contributions V cs = mutators_for V cs.
Proof.
  unfold collections_wf, contributions, mutators_for.
  induction 1 as [|kv t Hkv _ IH]; simpl; [reflexivity|].
  now rewrite IH, contributions_of_wf.
Qed.

Lemma mutators_for_no_replace V cs :
  no_replace_for V cs ->
  Forall (fun x => is_replace x = false) (mutators_for V cs).
Proof.
  unfold no_replace_for, mutators_for. intros H.
  apply Forall_forall. intros x Hx.
  apply in_flat_map in Hx. destruct Hx as [kv [Hkv Hx]].
  destruct (map_get V (Collection.map (snd kv))) as [m|] eqn:G; [|destruct Hx].
  destruct Hx as [<-|[]].
  specialize (H kv m Hkv G). unfold is_replace, tag. simpl.
  destruct (Mutator.type m); simpl; congruence.
Qed.

Lemma entry_of_construct_from cs m V :
  exists added,
    entry_of V (Merged.construct_from m cs) = added ++ entry_of V m.
Proof.
  rewrite !entry_of_get, map_get_construct_from.
  destruct (map_get V m) as [e|].
  - rewrite pushes_Some. destruct (Merged.first_is_replace e).
    + now exists [].
    + now exists (rev (upto_replace (contributions V cs))).
  - rewrite pushes_None.
    destruct (contributions V cs) as [|x t].
    + now exists [].
    + exists (rev (upto_replace (x :: t))). now rewrite app_nil_r.
Qed.

Lemma blocked_construct_from cs m V :
  Merged.first_is_replace (entry_of V m) = true ->
  map_get V (Merged.construct_from m cs) = map_get V m.
Proof.
  rewrite entry_of_get, map_get_construct_from.
  destruct (map_get V m) as [e|]; simpl; [|discriminate].
  intros R. now rewrite pushes_Some, R.
Qed.

Lemma no_replace_tail_head (entry : list Owned.t) :
  Forall (fun x => is_replace x = false) (tl entry) ->
  existsb is_replace entry = true ->
  Merged.first_is_replace entry = true.
Proof.
  destruct entry as [|h t]; simpl; [discriminate|].
  intros F. fold (is_replace h). destruct (is_replace h); [reflexivity|]. simpl.
  intros E. apply existsb_exists in E. destruct E as [x [I R]].
  rewrite Forall_forall in F. rewrite (F x I) in R. discriminate.
Qed.

Lemma constructor_entry_tail cs V entry :
  map_get V (Merged.constructor cs) = Some entry ->
  Forall (fun x => is_replace x = false) (tl entry).
Proof.
  rewrite map_get_constructor.
  destruct (contributions V cs) as [|x t] eqn:E; [discriminate|].
  intros [= <-]. apply (upto_replace_tail (x :: t)).
Qed.

(** ** The merge: the claims *)

(** C1. For every registry and every variable V for which no contributor's
    mutator is a Replace, the merged entry for V is exactly the list of the
    provenance-tagged mutators of the contributors that have a mutator for
    V, in reverse registry order (the contributor processed last is the
    head); there is no entry exactly when no contributor has a mutator for
    V. *)
Theorem merged_entry_reverse_registry_order
    (collections : OrderedMap Collection.t) (V : string) :
  collections_wf collections ->
  no_replace_for V collections ->
  entry_of V (Merged.constructor collections) = rev (mutators_for V collections)
  /\ (map_get V (Merged.constructor collections) = None
      <-> mutators_for V collections = []).
Proof.
  intros Hwf Hno.
  rewrite entry_of_get, map_get_constructor, contributions_wf by assumption.
  pose proof (upto_replace_no_replace _ (mutators_for_no_replace _ _ Hno)) as U.
  destruct (mutators_for V collections) as [|x t] eqn:E.
  - split; [reflexivity|tauto].
  - rewrite U. split; [reflexivity|]. split; discriminate.
Qed.

Lemma merged_entry_reverse_registry_order_witness :
  entry_of "VAR"
    (Merged.constructor
       [("ext1", Collection.Build false [("VAR", mut Append "1")]);
        ("ext2", Collection.Build true [("VAR", mut Prepend "2"); ("X", mut Replace "x")]);
        ("ext3", Collection.Build false [("Y", mut Append "y")])])
  = [owned "ext2" Prepend "2"; owned "ext1" Append "1"].
Proof.
  refine (proj1 (merged_entry_reverse_registry_order _ "VAR" _ _)).
  - repeat constructor; simpl; intuition discriminate.
  - intros kv m [<-|[<-|[<-|[]]]]; simpl; intros [= <-]; discriminate.
Defined.

(** C2. When a contributor's mutator for V arrives and the entry for V is
    non-empty with a Replace at its head, the mutator is skipped and the map
    is left as it is; processing further contributors never removes what an
    entry already holds (the old entry stays as a suffix); and once the head
    of the entry for V is a Replace, the contributors processed afterwards
    contribute nothing for V. *)
Theorem replace_head_blocks_later
    (m : Merged.t) (before after : OrderedMap Collection.t)
    (V i : string) (mutator : Mutator.t) :
  (Merged.first_is_replace (entry_of V m) = true ->
   Merged.visit i m (V, mutator) = m)
  /\ (exists added,
        entry_of V (Merged.constructor (before ++ after))
        = added ++ entry_of V (Merged.constructor before))
  /\ (Merged.first_is_replace (entry_of V (Merged.constructor before)) = true ->
      map_get V (Merged.constructor (before ++ after))
      = map_get V (Merged.constructor before)).
Proof.
  split; [|split].
  - unfold Merged.visit, entry_of. simpl.
    destruct (map_get V m) as [entry|]; simpl; [|discriminate].
    now intros ->.
  - unfold Merged.constructor. rewrite construct_from_app.
    apply entry_of_construct_from.
  - unfold Merged.constructor. rewrite construct_from_app.
    apply blocked_construct_from.
Qed.

Lemma replace_head_blocks_later_witness :
  Merged.visit "C" [("V", [owned "A" Replace "a"; owned "B" Append "b"])]
    ("V", mut Append "c")
  = [("V", [owned "A" Replace "a"; owned "B" Append "b"])]
  /\ map_get "V"
       (Merged.constructor
          ([("B", Collection.Build false [("V", mut Append "b")]);
            ("A", Collection.Build false [("V", mut Replace "a")])]
           ++ [("C", Collection.Build false [("V", mut Append "c")])]))
     = Some [owned "A" Replace "a"; owned "B" Append "b"].
Proof.
  pose proof (replace_head_blocks_later
    [("V", [owned "A" Replace "a"; owned "B" Append "b"])]
    [("B", Collection.Build false [("V", mut Append "b")]);
     ("A", Collection.Build false [("V", mut Replace "a")])]
    [("C", Collection.Build false [("V", mut Append "c")])]
    "V" "C" (mut Append "c")) as [Hskip [_ Hblocked]].
  split.
  - apply Hskip. reflexivity.
  - rewrite Hblocked; reflexivity.
Defined.

(** C4. In every entry of a merged collection a Replace can only be the
    head (index 0), so an entry holds at most one Replace; and once an entry
    holds a Replace, processing further contributors adds nothing to it. *)
Theorem replace_only_at_head
    (collections later : OrderedMap Collection.t) (V : string)
    (entry : list Owned.t) :
  map_get V (Merged.constructor collections) = Some entry ->
  (forall n x, nth_error entry n = Some x -> Owned.type x = Replace -> n = 0)
  /\ List.length (filter is_replace entry) <= 1
  /\ (existsb is_replace entry = true ->
      map_get V (Merged.constructor (collections ++ later)) = Some entry).
Proof.
  intros G. pose proof (constructor_entry_tail _ _ _ G) as F.
  split; [|split].
  - intros [|n] x Hn Hx; [reflexivity|exfalso].
    destruct entry as [|h t]; [discriminate|]. simpl in *.
    apply nth_error_In in Hn. rewrite Forall_forall in F.
    specialize (F x Hn). unfold is_replace in F. rewrite Hx in F. discriminate.
  - destruct entry as [|h t]; simpl in *; [lia|].
    assert (E : filter is_replace t = []).
    { clear G. induction F as [|y r Hy _ IH]; simpl; [reflexivity|]. now rewrite Hy. }
    destruct (is_replace h); simpl; rewrite E; simpl; lia.
  - intros E. pose proof (no_replace_tail_head _ F E) as R.
    unfold Merged.constructor. rewrite construct_from_app.
    rewrite blocked_construct_from; [exact G|].
    unfold entry_of. fold (Merged.constructor collections). now rewrite G.
Qed.

Lemma replace_only_at_head_witness :
  List.length (filter is_replace [owned "A" Replace "a"; owned "B" Append "b"]) <= 1
  /\ map_get "V"
       (Merged.constructor
          ([("B", Collection.Build false [("V", mut Append "b")]);
            ("A", Collection.Build false [("V", mut Replace "a")])]
           ++ [("C", Collection.Build false [("V", mut Replace "c")])]))
     = Some [owned "A" Replace "a"; owned "B" Append "b"].
Proof.
  pose proof (replace_only_at_head
    [("B", Collection.Build false [("V", mut Append "b")]);
     ("A", Collection.Build false [("V", mut Replace "a")])]
    [("C", Collection.Build false [("V", mut Replace "c")])]
    "V" [owned "A" Replace "a"; owned "B" Append "b"] eq_refl)
    as [_ [Hone Hsame]].
  split; [exact Hone|apply Hsame; reflexivity].
Defined.

(** ** The registry *)

Lemma set_spec this i p c :
  snd (Server.set i p c this)
  = Server.Build
      (map_set i (Collection.Build p (map_of_entries c)) (Server.collections this))
      (Merged.constructor
         (map_set i (Collection.Build p (map_of_entries c)) (Server.collections this))).
Proof. reflexivity. Qed.

Lemma delete_spec this i :
  snd (Server.delete i this)
  = Server.Build
      (map_delete i (Server.collections this))
      (Merged.constructor (map_delete i (Server.collections this))).
Proof. reflexivity. Qed.

Lemma run_from_snoc this calls c :
  Server.run_from this (calls ++ [c])
  = snd (Server.call c (Server.run_from this calls)).
Proof. unfold Server.run_from. now rewrite fold_left_app. Qed.

(** The stored merged collection is always the merge of the stored
    registry. *)
Lemma run_in_sync calls :
  Server.mergedCollection (Server.run calls)
  = Merged.constructor (Server.collections (Server.run calls)).
Proof.
  unfold Server.run.
  induction calls as [|c l _] using rev_ind; [reflexivity|].
  rewrite run_from_snoc. destruct c; reflexivity.
Qed.

Lemma collections_wf_set cs i c :
  collections_wf cs -> map_wf (Collection.map c) -> collections_wf (map_set i c cs).
Proof.
  unfold collections_wf. induction 1 as [|[k0 c0] t H0 Ht IH]; simpl; intros Hc.
  - repeat constructor. exact Hc.
  - destruct (String.eqb i k0); constructor; auto.
Qed.

Lemma collections_wf_delete cs i :
  collections_wf cs -> collections_wf (map_delete i cs).
Proof.
  unfold collections_wf. induction 1 as [|[k0 c0] t H0 Ht IH]; simpl.
  - constructor.
  - destruct (String.eqb i k0); [assumption|]. constructor; assumption.
Qed.

(** Every registry that the calls can build is a [Map] of [Map]s. *)
Lemma run_wf calls :
  map_wf (Server.collections (Server.run calls))
  /\ collections_wf (Server.collections (Server.run calls)).
Proof.
  unfold Server.run.
  induction calls as [|c l [IH1 IH2]] using rev_ind.
  - split; constructor.
  - rewrite run_from_snoc. destruct c as [i p e|i]; unfold Server.call.
    + rewrite set_spec. simpl. split.
      * now apply map_wf_set.
      * apply collections_wf_set; [assumption|]. simpl. apply map_of_entries_wf.
    + rewrite delete_spec. simpl. split.
      * now apply map_wf_delete.
      * now apply collections_wf_delete.
Qed.

(** C6. After every set and every delete, from any state of the server (the
    merged collection it held plays no part), the registry holds the change
    and the stored merged collection is the merge of the whole registry as
    it then is; so after any sequence of calls the stored merged collection
    is the merge of the stored registry. *)
Theorem merged_collection_recomputed_wholesale
    (this : Server.t) (extensionIdentifier : string) (persistent : bool)
    (collection : SerializableEnvironmentVariableCollection)
    (calls : list Server.Call) :
  Server.collections (snd (Server.set extensionIdentifier persistent collection this))
  = map_set extensionIdentifier
      (Collection.Build persistent (map_of_entries collection))
      (Server.collections this)
  /\ Server.mergedCollection
       (snd (Server.set extensionIdentifier persistent collection this))
     = Merged.constructor
         (Server.collections
            (snd (Server.set extensionIdentifier persistent collection this)))
  /\ Server.collections (snd (Server.delete extensionIdentifier this))
     = map_delete extensionIdentifier (Server.collections this)
  /\ Server.mergedCollection (snd (Server.delete extensionIdentifier this))
     = Merged.constructor
         (Server.collections (snd (Server.delete extensionIdentifier this)))
  /\ Server.mergedCollection (Server.run calls)
     = Merged.constructor (Server.collections (Server.run calls)).
Proof.
  rewrite set_spec, delete_spec. simpl.
  repeat split. apply run_in_sync.
Qed.

(** C7. Deleting a contributor that the registry does not hold changes
    nothing: the registry is as before and the merged collection is equal
    to the one before the call. *)
Theorem delete_absent_is_noop (calls : list Server.Call) (extensionIdentifier : string) :
  map_get extensionIdentifier (Server.collections (Server.run calls)) = None ->
  Server.collections (snd (Server.delete extensionIdentifier (Server.run calls)))
  = Server.collections (Server.run calls)
  /\ Server.mergedCollection (snd (Server.delete extensionIdentifier (Server.run calls)))
     = Server.mergedCollection (Server.run calls).
Proof.
  intros H. rewrite delete_spec. simpl.
  rewrite (map_delete_absent _ _ H), run_in_sync. split; reflexivity.
Qed.

Lemma delete_absent_is_noop_witness :
  Server.mergedCollection
    (snd (Server.delete "ext3"
            (Server.run [Server.CallSet "ext1" false [("VAR", mut Append "1")];
                         Server.CallSet "ext2" true [("VAR", mut Prepend "2")]])))
  = [("VAR", [owned "ext2" Prepend "2"; owned "ext1" Append "1"])].
Proof.
  rewrite (proj2 (delete_absent_is_noop
    [Server.CallSet "ext1" false [("VAR", mut Append "1")];
     Server.CallSet "ext2" true [("VAR", mut Prepend "2")]] "ext3" eq_refl)).
  reflexivity.
Defined.

Lemma visit_continue i m variable mutator entry :
  map_get variable m = Some entry ->
  Merged.first_is_replace entry = true ->
  Merged.visit i m (variable, mutator) = m.
Proof. intros G R. unfold Merged.visit. simpl. now rewrite G, R. Qed.

Lemma visit_unshift i m variable mutator entry :
  map_get variable m = Some entry ->
  Merged.first_is_replace entry = false ->
  Merged.visit i m (variable, mutator)
  = map_set variable (tag i mutator :: entry) m.
Proof. intros G R. unfold Merged.visit. simpl. now rewrite G, R. Qed.

Lemma visit_create i m variable mutator :
  map_get variable m = None ->
  Merged.visit i m (variable, mutator)
  = map_set variable [tag i mutator] (map_set variable [] m).
Proof. intros G. unfold Merged.visit. simpl. now rewrite G. Qed.

Lemma while_loop_visit i l m result :
  while_loop i l m result <-> result = fold_left (Merged.visit i) l m.
Proof.
  split.
  - induction 1 as [m|variable mutator rest m entry result G R _ IH
                     |variable mutator rest m entry result G R _ IH
                     |variable mutator rest m result G _ IH]; simpl.
    + reflexivity.
    + now rewrite (visit_continue _ _ _ _ _ G R).
    + now rewrite (visit_unshift _ _ _ _ _ G R).
    + now rewrite (visit_create _ _ _ _ G).
  - intros ->. revert m. induction l as [|[variable mutator] rest IH]; intros m; simpl.
    + constructor.
    + specialize (IH (Merged.visit i m (variable, mutator))).
      destruct (map_get variable m) as [entry|] eqn:G.
      * destruct (Merged.first_is_replace entry) eqn:R.
        -- rewrite (visit_continue _ _ _ _ _ G R) in *.
           eapply while_continue; eassumption.
        -- rewrite (visit_unshift _ _ _ _ _ G R) in *.
           eapply while_unshift; eassumption.
      * rewrite (visit_create _ _ _ _ G) in *. now apply while_create.
Qed.

Lemma forEach_loop_construct_from cs m result :
  forEach_loop cs m result <-> result = Merged.construct_from m cs.
Proof.
  unfold Merged.construct_from. split.
  - induction 1 as [m|i c rest m middle result W _ IH]; simpl; [reflexivity|].
    apply while_loop_visit in W. rewrite IH, W. reflexivity.
  - intros ->. revert m. induction cs as [|[i c] rest IH]; intros m; simpl.
    + constructor.
    + econstructor; [|apply IH]. apply while_loop_visit. reflexivity.
Qed.

(** C8. The construction is deterministic: every run of the constructor's
    loops on a registry ends, and any two runs on the same registry contents
    end with the same merged collection (the same keys, each with the same
    list); on the server, computing the merged collection leaves the server
    as it was, so computing it again gives the same result. *)
Theorem merge_is_deterministic
    (collections : OrderedMap Collection.t) (this : Server.t) :
  (forall m1 m2,
     constructs collections m1 -> constructs collections m2 ->
     m1 = m2
     /\ map_keys m1 = map_keys m2
     /\ (forall V, map_get V m1 = map_get V m2))
  /\ constructs collections (Merged.constructor collections)
  /\ snd (Server.resolveMergedCollection this) = this
  /\ fst (Server.resolveMergedCollection (snd (Server.resolveMergedCollection this)))
     = fst (Server.resolveMergedCollection this).
Proof.
  split; [|split; [|split]].
  - intros m1 m2 H1 H2.
    apply forEach_loop_construct_from in H1, H2. subst. repeat split.
  - apply forEach_loop_construct_from. reflexivity.
  - reflexivity.
  - reflexivity.
Qed.

Lemma merge_is_deterministic_witness :
  forEach_loop
    [("ext1", Collection.Build false [("VAR", mut Replace "1")]);
     ("ext2", Collection.Build false [("VAR", mut Append "2"); ("X", mut Prepend "x")])]
    []
    [("VAR", [owned "ext1" Replace "1"]); ("X", [owned "ext2" Prepend "x"])]
  /\ Merged.constructor
       [("ext1", Collection.Build false [("VAR", mut Replace "1")]);
        ("ext2", Collection.Build false [("VAR", mut Append "2"); ("X", mut Prepend "x")])]
     = [("VAR", [owned "ext1" Replace "1"]); ("X", [owned "ext2" Prepend "x"])].
Proof.
  assert (R : constructs
    [("ext1", Collection.Build false [("VAR", mut Replace "1")]);
     ("ext2", Collection.Build false [("VAR", mut Append "2"); ("X", mut Prepend "x")])]
    [("VAR", [owned "ext1" Replace "1"]); ("X", [owned "ext2" Prepend "x"])]).
  { unfold constructs.
    eapply forEach_next.
    - apply while_create; [reflexivity|]. apply while_done.
    - eapply forEach_next; [|apply forEach_done].
      eapply while_continue; [reflexivity|reflexivity|].
      apply while_create; [reflexivity|]. apply while_done. }
  split; [exact R|].
  destruct (merge_is_deterministic
    [("ext1", Collection.Build false [("VAR", mut Replace "1")]);
     ("ext2", Collection.Build false [("VAR", mut Append "2"); ("X", mut Prepend "x")])]
    Server.constructor) as [Hdet [Hrun _]].
  symmetry. exact (proj1 (Hdet _ _ R Hrun)).
Defined.

(** ** More on insertion-ordered dictionaries *)

Section OrderedMapMore.
Context {V : Type}.
Implicit Types (m : OrderedMap V) (k : string) (v : V).

Lemma map_set_set m k v1 v2 : map_set k v2 (map_set k v1 m) = map_set k v2 m.
Proof.
  induction m as [|[k0 v0] t IH]; simpl.
  - now rewrite String.eqb_refl.
  - destruct (String.eqb k k0) eqn:E; simpl; rewrite E; [reflexivity|].
    now rewrite IH.
Qed.

Lemma map_delete_set_absent m k v :
  map_get k m = None -> map_delete k (map_set k v m) = m.
Proof.
  induction m as [|[k0 v0] t IH]; simpl.
  - now rewrite String.eqb_refl.
  - destruct (String.eqb k k0) eqn:E; [discriminate|]. simpl. rewrite E.
    intros H. now rewrite IH.
Qed.

Lemma map_get_delete m k k' :
  map_wf m ->
  map_get k' (map_delete k m) = if String.eqb k' k then None else map_get k' m.
Proof.
  unfold map_wf. induction m as [|[k0 v0] t IH]; simpl; intros W.
  - now destruct (String.eqb k' k).
  - inversion W as [|? ? Hn Wt]; subst.
    destruct (String.eqb_spec k k0) as [E|Hk].
    + rewrite E. destruct (String.eqb_spec k' k0) as [E'|]; [|reflexivity].
      rewrite E'. now apply map_get_None.
    + simpl. rewrite (IH Wt).
      destruct (String.eqb_spec k' k0) as [E'|]; [|reflexivity].
      rewrite E'. destruct (String.eqb_spec k0 k); [congruence|reflexivity].
Qed.

Lemma map_get_app (a b : OrderedMap V) k :
  map_get k (a ++ b)
  = match map_get k a with Some v => Some v | None => map_get k b end.
Proof.
  induction a as [|[k0 v0] t IH]; simpl; [reflexivity|].
  destruct (String.eqb k k0); [reflexivity|exact IH].
Qed.

Lemma map_get_fold_set (entries : list (string * V)) m k :
  map_get k (fold_left (fun m kv => map_set (fst kv) (snd kv) m) entries m)
  = match map_get k (rev entries) with
    | Some v => Some v
    | None => map_get k m
    end.
Proof.
  revert m. induction entries as [|[k0 v0] t IH]; intros m; simpl; [reflexivity|].
  rewrite IH, map_get_app, map_get_set. simpl.
  destruct (map_get k (rev t)); [reflexivity|].
  destruct (String.eqb k k0); reflexivity.
Qed.

(** Writes of [f e |-> g e] for the [e] of a list, one after the other: a
    name holds what the last [e] of that name wrote. *)
Lemma map_get_fold_set_keys (f : string -> string) (g : string -> V)
    (keys : list string) (lk : string) :
  let o := fold_left (fun o e => map_set (f e) (g e) o) keys [] in
  (forall v, map_get lk o = Some v -> exists a, In a keys /\ f a = lk /\ v = g a)
  /\ (map_get lk o = None <-> forall a, In a keys -> f a <> lk).
Proof.
  induction keys as [|e l IH] using rev_ind; simpl.
  - split; [discriminate|]. split; auto.
  - rewrite fold_left_app. simpl. rewrite map_get_set.
    destruct IH as [IH1 IH2].
    destruct (String.eqb_spec lk (f e)) as [->|Hne].
    + split.
      * intros v [= <-]. exists e. repeat split. apply in_or_app. right. now left.
      * split; [discriminate|]. intros H. exfalso.
        apply (H e); [apply in_or_app; right; now left|reflexivity].
    + split.
      * intros v Hv. destruct (IH1 v Hv) as [a [I [E1 E2]]].
        exists a. repeat split; auto. apply in_or_app. now left.
      * rewrite IH2. split.
        -- intros H a I. apply in_app_or in I.
           destruct I as [I|[<-|[]]]; [auto|congruence].
        -- intros H a I. apply H, in_or_app. now left.
Qed.

Lemma map_wf_fold_set_keys (f : string -> string) (g : string -> V)
    (keys : list string) :
  map_wf (fold_left (fun o e => map_set (f e) (g e) o) keys []).
Proof.
  induction keys as [|e l IH] using rev_ind; simpl.
  - constructor.
  - rewrite fold_left_app. simpl. now apply map_wf_set.
Qed.

Lemma map_get_wf_lookup m :
  map_wf m -> List.map (fun key => map_get key m) (map_keys m) = List.map (fun kv => Some (snd kv)) m.
Proof.
  unfold map_wf. induction m as [|[k0 v0] t IH]; simpl; intros W; [reflexivity|].
  inversion W as [|? ? Hn Wt]; subst. rewrite String.eqb_refl. f_equal.
  rewrite <- (IH Wt). apply map_ext_in. intros k I.
  destruct (String.eqb_spec k k0) as [->|]; [contradiction|reflexivity].
Qed.

End OrderedMapMore.

(** ** The registry: further properties *)

(** X1. After any sequence of calls the registry holds each contributor
    once, and each stored collection holds each variable name once. *)
Theorem registry_keys_distinct (calls : list Server.Call) :
  NoDup (map_keys (Server.collections (Server.run calls)))
  /\ Forall (fun kv => NoDup (map_keys (Collection.map (snd kv))))
       (Server.collections (Server.run calls)).
Proof. exact (run_wf calls). Qed.

(** X2. After [set] the registry returns the new collection for the
    contributor (with the given persistence) and what it returned before for
    every other contributor; a contributor that was registered keeps its
    place in the order, a new one goes last. *)
Theorem set_then_lookup (this : Server.t) (i : string) (p : bool)
    (c : SerializableEnvironmentVariableCollection) :
  map_get i (Server.collections (snd (Server.set i p c this)))
  = Some (Collection.Build p (map_of_entries c))
  /\ (forall j, j <> i ->
      map_get j (Server.collections (snd (Server.set i p c this)))
      = map_get j (Server.collections this))
  /\ (In i (map_keys (Server.collections this)) ->
      map_keys (Server.collections (snd (Server.set i p c this)))
      = map_keys (Server.collections this))
  /\ (~ In i (map_keys (Server.collections this)) ->
      map_keys (Server.collections (snd (Server.set i p c this)))
      = map_keys (Server.collections this) ++ [i]).
Proof.
  rewrite set_spec. simpl. split; [|split; [|split]].
  - apply map_get_set_same.
  - intros j H. rewrite map_get_set.
    destruct (String.eqb_spec j i); [contradiction|reflexivity].
  - apply map_keys_set_present.
  - apply map_keys_set_absent.
Qed.

Lemma set_then_lookup_witness :
  map_keys
    (Server.collections
       (snd (Server.set "ext1" true [("B", mut Replace "b")]
               (Server.run [Server.CallSet "ext1" false [("A", mut Append "a")];
                            Server.CallSet "ext2" false []]))))
  = ["ext1"; "ext2"]
  /\ map_keys
       (Server.collections
          (snd (Server.set "ext3" true []
                  (Server.run [Server.CallSet "ext1" false [("A", mut Append "a")];
                               Server.CallSet "ext2" false []]))))
     = ["ext1"; "ext2"; "ext3"].
Proof.
  split.
  - apply (set_then_lookup
             (Server.run [Server.CallSet "ext1" false [("A", mut Append "a")];
                          Server.CallSet "ext2" false []])
             "ext1" true [("B", mut Replace "b")]).
    left. reflexivity.
  - apply (set_then_lookup
             (Server.run [Server.CallSet "ext1" false [("A", mut Append "a")];
                          Server.CallSet "ext2" false []])
             "ext3" true []).
    simpl. intuition discriminate.
Defined.

(** X3. After [delete], on a server that the calls built, the registry has
    nothing for the contributor and returns what it returned before for
    every other one. *)
Theorem delete_then_lookup (calls : list Server.Call) (i j : string) :
  map_get j (Server.collections (snd (Server.delete i (Server.run calls))))
  = if String.eqb j i then None
    else map_get j (Server.collections (Server.run calls)).
Proof.
  rewrite delete_spec. simpl. apply map_get_delete. apply run_wf.
Qed.

(** X4. Registering a contributor that the registry does not hold and then
    deleting it gives back the server as it was: the same registry and the
    same merged collection. *)
Theorem set_then_delete_restores (calls : list Server.Call) (i : string)
    (p : bool) (c : SerializableEnvironmentVariableCollection) :
  map_get i (Server.collections (Server.run calls)) = None ->
  snd (Server.delete i (snd (Server.set i p c (Server.run calls))))
  = Server.run calls.
Proof.
  intros H. rewrite delete_spec, set_spec. simpl.
  rewrite (map_delete_set_absent _ _ _ H), <- run_in_sync.
  now destruct (Server.run calls).
Qed.

Lemma set_then_delete_restores_witness :
  snd (Server.delete "ext2"
         (snd (Server.set "ext2" true [("VAR", mut Replace "2")]
                 (Server.run [Server.CallSet "ext1" false [("VAR", mut Append "1")]]))))
  = Server.run [Server.CallSet "ext1" false [("VAR", mut Append "1")]].
Proof.
  apply (set_then_delete_restores
           [Server.CallSet "ext1" false [("VAR", mut Append "1")]]
           "ext2" true [("VAR", mut Replace "2")]).
  reflexivity.
Defined.

(** X5. A second [set] for a contributor overwrites the first: the server is
    as if only the second had been made. *)
Theorem set_overwrites (this : Server.t) (i : string) (p1 p2 : bool)
    (c1 c2 : SerializableEnvironmentVariableCollection) :
  snd (Server.set i p2 c2 (snd (Server.set i p1 c1 this)))
  = snd (Server.set i p2 c2 this).
Proof. rewrite !set_spec. simpl. now rewrite map_set_set. Qed.

(** X6. A serialized collection may name a variable more than once: the
    stored collection then holds the variable once, with the mutator of its
    last pair. *)
Theorem set_keeps_last_mutator (this : Server.t) (i : string) (p : bool)
    (c : SerializableEnvironmentVariableCollection) (variable : string) :
  exists stored,
    map_get i (Server.collections (snd (Server.set i p c this))) = Some stored
    /\ Collection.persistent stored = p
    /\ NoDup (map_keys (Collection.map stored))
    /\ map_get variable (Collection.map stored) = map_get variable (rev c).
Proof.
  exists (Collection.Build p (map_of_entries c)).
  rewrite set_spec. simpl. split; [apply map_get_set_same|].
  split; [reflexivity|]. split; [apply map_of_entries_wf|].
  unfold map_of_entries. rewrite map_get_fold_set. simpl.
  now destruct (map_get variable (rev c)).
Qed.

(** ** The merge: further properties *)

Lemma contributions_In V cs x :
  In x (contributions V cs)
  <-> exists kv mu, In kv cs /\ In (V, mu) (Collection.map (snd kv))
                    /\ x = tag (fst kv) mu.
Proof.
  unfold contributions, contributions_of. rewrite in_flat_map. split.
  - intros [kv [Ikv Hx]]. apply in_flat_map in Hx. destruct Hx as [[k mu] [Ie Hx]].
    simpl in Hx. destruct (String.eqb_spec k V) as [->|]; [|destruct Hx].
    destruct Hx as [<-|[]]. exists kv, mu. auto.
  - intros [kv [mu [Ikv [Ie ->]]]]. exists kv. split; [assumption|].
    apply in_flat_map. exists (V, mu). split; [assumption|].
    simpl. rewrite String.eqb_refl. now left.
Qed.

Lemma upto_replace_incl l x : In x (upto_replace l) -> In x l.
Proof.
  induction l as [|y t IH]; simpl; [tauto|].
  destruct (is_replace y); simpl; intuition.
Qed.

Lemma upto_replace_prefix l : exists r, l = upto_replace l ++ r.
Proof.
  induction l as [|y t [r IH]]; simpl.
  - now exists [].
  - destruct (is_replace y).
    + now exists t.
    + exists r. simpl. now rewrite <- IH.
Qed.

Lemma upto_replace_first l1 x l2 :
  Forall (fun y => is_replace y = false) l1 ->
  is_replace x = true ->
  upto_replace (l1 ++ x :: l2) = l1 ++ [x].
Proof.
  induction 1 as [|y t Hy _ IH]; simpl; intros Hx.
  - now rewrite Hx.
  - now rewrite Hy, IH.
Qed.

Lemma visit_wf i m next : map_wf m -> map_wf (Merged.visit i m next).
Proof.
  intros W. unfold Merged.visit.
  destruct (map_get (fst next) m) as [entry|].
  - destruct (Merged.first_is_replace entry); [assumption|now apply map_wf_set].
  - simpl. now apply map_wf_set, map_wf_set.
Qed.

Lemma construct_from_wf cs m : map_wf m -> map_wf (Merged.construct_from m cs).
Proof.
  unfold Merged.construct_from, Merged.visit_collection. revert m.
  induction cs as [|[i c] t IH]; intros m W; simpl; [assumption|].
  apply IH. generalize (Collection.map c) as l. intros l. revert m W.
  induction l as [|e l IHl]; intros m W; simpl; [assumption|].
  apply IHl. now apply visit_wf.
Qed.

Lemma constructor_wf cs : map_wf (Merged.constructor cs).
Proof. apply construct_from_wf. constructor. Qed.

Lemma mutators_for_app V cs1 cs2 :
  mutators_for V (cs1 ++ cs2) = mutators_for V cs1 ++ mutators_for V cs2.
Proof. unfold mutators_for. apply flat_map_app. Qed.

Lemma mutators_for_ids V cs x :
  In x (mutators_for V cs) -> In (Owned.extensionIdentifier x) (map_keys cs).
Proof.
  unfold mutators_for. intros H. apply in_flat_map in H.
  destruct H as [kv [Ikv Hx]].
  destruct (map_get V (Collection.map (snd kv))); [|destruct Hx].
  destruct Hx as [<-|[]]. simpl. unfold map_keys. now apply in_map.
Qed.

Lemma mutators_for_ids_NoDup V cs :
  map_wf cs -> NoDup (List.map Owned.extensionIdentifier (mutators_for V cs)).
Proof.
  unfold map_wf. induction cs as [|[i c] t IH]; simpl; intros W; [constructor|].
  inversion W as [|? ? Hn Wt]; subst.
  destruct (map_get V (Collection.map c)) as [mu|]; simpl; [|auto].
  constructor; [|auto].
  intros I. apply in_map_iff in I. destruct I as [x [E Ix]].
  apply mutators_for_ids in Ix. rewrite E in Ix. contradiction.
Qed.

(** X7. The merged collection holds each variable once, and it has an entry
    for a variable exactly when some contributor of the registry has a
    mutator for it. *)
Theorem merged_variables (collections : OrderedMap Collection.t) (V : string) :
  NoDup (map_keys (Merged.constructor collections))
  /\ (In V (map_keys (Merged.constructor collections))
      <-> exists kv, In kv collections
                     /\ In V (map_keys (Collection.map (snd kv)))).
Proof.
  split; [apply constructor_wf|].
  split.
  - intros I.
    destruct (map_get V (Merged.constructor collections)) as [entry|] eqn:G.
    + rewrite map_get_constructor in G.
      destruct (contributions V collections) as [|x t] eqn:E; [discriminate|].
      assert (Ix : In x (contributions V collections)) by (rewrite E; now left).
      apply contributions_In in Ix. destruct Ix as [kv [mu [Ikv [Ie _]]]].
      exists kv. split; [assumption|].
      unfold map_keys. apply in_map_iff. now exists (V, mu).
    + apply map_get_None in G. contradiction.
  - intros [kv [Ikv Ik]]. unfold map_keys in Ik. apply in_map_iff in Ik.
    destruct Ik as [[k mu] [E Ie]]. simpl in E. subst k.
    assert (Ix : In (tag (fst kv) mu) (contributions V collections)).
    { apply contributions_In. exists kv, mu. auto. }
    destruct (map_get V (Merged.constructor collections)) as [entry|] eqn:G.
    + eapply map_get_In_keys; eassumption.
    + rewrite map_get_constructor in G.
      destruct (contributions V collections); [destruct Ix|discriminate].
Qed.

(** X8. An entry of the merged collection is never empty, and each of its
    mutators is a mutator that a contributor of the registry holds for that
    variable, tagged with that contributor's identifier. *)
Theorem merged_entry_provenance (collections : OrderedMap Collection.t)
    (V : string) (entry : list Owned.t) :
  map_get V (Merged.constructor collections) = Some entry ->
  entry <> []
  /\ forall x, In x entry ->
       exists kv mu, In kv collections
                     /\ In (V, mu) (Collection.map (snd kv))
                     /\ x = Owned.Build (fst kv) (Mutator.value mu) (Mutator.type mu).
Proof.
  rewrite map_get_constructor.
  destruct (contributions V collections) as [|y t] eqn:E; [discriminate|].
  intros [= <-]. split.
  - simpl. destruct (is_replace y); simpl; [discriminate|].
    intros H. apply app_eq_nil in H. destruct H. discriminate.
  - intros x Ix. apply in_rev in Ix. apply (upto_replace_incl (y :: t)) in Ix.
    rewrite <- E in Ix. apply contributions_In in Ix. exact Ix.
Qed.

Lemma merged_entry_provenance_witness :
  [owned "A" Replace "a"; owned "B" Append "b"] <> [].
Proof.
  apply (merged_entry_provenance
           [("B", Collection.Build false [("V", mut Append "b")]);
            ("A", Collection.Build false [("V", mut Replace "a")]);
            ("C", Collection.Build false [("V", mut Append "c")])]
           "V" [owned "A" Replace "a"; owned "B" Append "b"]).
  reflexivity.
Defined.

(** X9. When the registry holds each contributor once and each collection
    holds each variable once, an entry of the merged collection has at most
    one mutator of each contributor. *)
Theorem merged_entry_one_per_contributor (collections : OrderedMap Collection.t)
    (V : string) (entry : list Owned.t) :
  map_wf collections ->
  collections_wf collections ->
  map_get V (Merged.constructor collections) = Some entry ->
  NoDup (List.map Owned.extensionIdentifier entry).
Proof.
  intros W Wc. rewrite map_get_constructor, contributions_wf by assumption.
  pose proof (mutators_for_ids_NoDup V collections W) as N.
  destruct (upto_replace_prefix (mutators_for V collections)) as [r P].
  destruct (mutators_for V collections) as [|y t] eqn:E; [discriminate|].
  intros [= <-].
  change (NoDup (List.map Owned.extensionIdentifier (rev (upto_replace (y :: t))))).
  rewrite map_rev. apply NoDup_rev.
  rewrite P, map_app in N. eapply NoDup_app_remove_r. exact N.
Qed.

Lemma merged_entry_one_per_contributor_witness :
  NoDup (List.map Owned.extensionIdentifier
           [owned "A" Replace "a"; owned "B" Append "b"]).
Proof.
  apply (merged_entry_one_per_contributor
           [("B", Collection.Build false [("V", mut Append "b")]);
            ("A", Collection.Build false [("V", mut Replace "a")]);
            ("C", Collection.Build false [("V", mut Append "c")])]
           "V" [owned "A" Replace "a"; owned "B" Append "b"]).
  - repeat constructor; simpl; intuition discriminate.
  - repeat constructor; simpl; intuition discriminate.
  - reflexivity.
Defined.

(** X10. The first contributor, in registry order, that has a Replace for a
    variable decides the entry: it is that Replace followed by the mutators
    of the contributors before it, the latest first; the contributors after
    it do not appear. *)
Theorem first_replace_decides_entry
    (before after : OrderedMap Collection.t) (A : string) (cA : Collection.t)
    (V : string) (mu : Mutator.t) :
  collections_wf (before ++ (A, cA) :: after) ->
  no_replace_for V before ->
  map_get V (Collection.map cA) = Some mu ->
  Mutator.type mu = Replace ->
  map_get V (Merged.constructor (before ++ (A, cA) :: after))
  = Some (Owned.Build A (Mutator.value mu) Replace :: rev (mutators_for V before)).
Proof.
  intros W Hno G R.
  rewrite map_get_constructor, contributions_wf by assumption.
  rewrite mutators_for_app.
  change (mutators_for V ((A, cA) :: after))
    with ((match map_get V (Collection.map cA) with
           | Some m => [tag A m] | None => [] end) ++ mutators_for V after).
  rewrite G. simpl.
  pose proof (mutators_for_no_replace _ _ Hno) as F.
  assert (Rx : is_replace (tag A mu) = true).
  { unfold is_replace, tag. simpl. now rewrite R. }
  pose proof (upto_replace_first _ _ (mutators_for V after) F Rx) as U.
  destruct (mutators_for V before ++ tag A mu :: mutators_for V after)
    as [|y t] eqn:E.
  - destruct (mutators_for V before); discriminate.
  - change (Some (rev (upto_replace (y :: t)))
            = Some (Owned.Build A (Mutator.value mu) Replace
                      :: rev (mutators_for V before))).
    rewrite U, rev_app_distr. simpl. unfold tag. now rewrite R.
Qed.

Lemma first_replace_decides_entry_witness :
  map_get "V"
    (Merged.constructor
       ([("B", Collection.Build false [("V", mut Append "b")]);
         ("D", Collection.Build false [("V", mut Prepend "d")])]
        ++ ("A", Collection.Build false [("V", mut Replace "a")])
           :: [("C", Collection.Build false [("V", mut Replace "c")])]))
  = Some [owned "A" Replace "a"; owned "D" Prepend "d"; owned "B" Append "b"].
Proof.
  apply (first_replace_decides_entry
           [("B", Collection.Build false [("V", mut Append "b")]);
            ("D", Collection.Build false [("V", mut Prepend "d")])]
           [("C", Collection.Build false [("V", mut Replace "c")])]
           "A" (Collection.Build false [("V", mut Replace "a")])
           "V" (mut Replace "a")).
  - repeat constructor; simpl; intuition discriminate.
  - intros kv m [<-|[<-|[]]]; simpl; intros [= <-]; discriminate.
  - reflexivity.
  - reflexivity.
Defined.

(** ** Drives *)

Lemma getDrives_inner fileUri (mps : list Mountpoint.t) (uris : list string) :
  fold_left
    (fun uris mounpoint =>
       if filterHiddenPartitions (Mountpoint.path mounpoint)
       then uris ++ [fileUri (Mountpoint.path mounpoint)]
       else uris)
    mps uris
  = uris ++ List.map fileUri
              (filter filterHiddenPartitions (List.map Mountpoint.path mps)).
Proof.
  revert uris. induction mps as [|mp t IH]; intros uris; simpl.
  - now rewrite app_nil_r.
  - rewrite IH. destruct (filterHiddenPartitions (Mountpoint.path mp)); simpl.
    + now rewrite <- app_assoc.
    + reflexivity.
Qed.

Lemma filterHiddenPartitions_true path :
  filterHiddenPartitions path = true
  <-> path <> "/private/var/vm" /\ path <> "/boot/efi".
Proof.
  unfold filterHiddenPartitions.
  destruct (String.eqb_spec path "/private/var/vm");
    destruct (String.eqb_spec path "/boot/efi"); split;
    try discriminate; try tauto.
Qed.

(** X19. [getDrives] returns the URIs of the mount paths of the drives, in
    the order of the drives and of their mount points, leaving out exactly
    the paths "/private/var/vm" and "/boot/efi". *)
Theorem getDrives_visible_mount_paths (fileUri : string -> string)
    (drives : list Drive.t) :
  getDrives fileUri drives
  = List.map fileUri (filter filterHiddenPartitions (mount_paths drives))
  /\ forall uri, In uri (getDrives fileUri drives)
       <-> exists path, In path (mount_paths drives)
             /\ path <> "/private/var/vm" /\ path <> "/boot/efi"
             /\ uri = fileUri path.
Proof.
  assert (E : forall uris,
            fold_left
              (fun uris drive =>
                 fold_left
                   (fun uris mounpoint =>
                      if filterHiddenPartitions (Mountpoint.path mounpoint)
                      then uris ++ [fileUri (Mountpoint.path mounpoint)]
                      else uris)
                   (Drive.mountpoints drive) uris)
              drives uris
            = uris ++ List.map fileUri
                        (filter filterHiddenPartitions (mount_paths drives))).
  { unfold mount_paths. induction drives as [|d t IH]; intros uris; simpl.
    - now rewrite app_nil_r.
    - rewrite IH, getDrives_inner, filter_app, map_app, app_assoc. reflexivity. }
  unfold getDrives. rewrite E. simpl. split; [reflexivity|].
  intros uri. rewrite in_map_iff. split.
  - intros [path [<- I]]. apply filter_In in I. destruct I as [I F].
    apply filterHiddenPartitions_true in F. exists path. tauto.
  - intros [path [I [N1 [N2 ->]]]]. exists path. split; [reflexivity|].
    apply filter_In. split; [assumption|].
    apply filterHiddenPartitions_true. tauto.
Qed.

(** ** The merge and the registry: what plays no part *)

Lemma constructor_persistence_irrelevant (f : string -> bool)
    (cs : OrderedMap Collection.t) (m : Merged.t) :
  Merged.construct_from m
    (List.map (fun kv => (fst kv, Collection.Build (f (fst kv)) (Collection.map (snd kv)))) cs)
  = Merged.construct_from m cs.
Proof.
  unfold Merged.construct_from. revert m.
  induction cs as [|[i c] t IH]; intros m; simpl; [reflexivity|].
  now rewrite IH.
Qed.

(** X20. The merge does not read the persistence of the collections: the
    registry with every persistence flag changed gives the same merged
    collection. *)
Theorem merge_ignores_persistence (f : string -> bool)
    (collections : OrderedMap Collection.t) :
  Merged.constructor
    (List.map
       (fun kv => (fst kv, Collection.Build (f (fst kv)) (Collection.map (snd kv))))
       collections)
  = Merged.constructor collections.
Proof. apply constructor_persistence_irrelevant. Qed.

Lemma construct_from_set_empty i p (cs : OrderedMap Collection.t) (m : Merged.t) :
  Merged.construct_from m (map_set i (Collection.Build p []) cs)
  = Merged.construct_from m (map_delete i cs).
Proof.
  unfold Merged.construct_from. revert m.
  induction cs as [|[k c] t IH]; intros m; simpl; [reflexivity|].
  destruct (String.eqb i k); simpl; [reflexivity|apply IH].
Qed.

(** X21. Registering an empty collection for a contributor leaves the same
    merged collection as deleting the contributor, from any state of the
    server. *)
Theorem set_empty_merges_like_delete (this : Server.t) (i : string) (p : bool) :
  Server.mergedCollection (snd (Server.set i p [] this))
  = Server.mergedCollection (snd (Server.delete i this)).
Proof.
  rewrite set_spec, delete_spec. simpl. apply construct_from_set_empty.
Qed.

(** ** Instances of the properties stated with a condition *)

Lemma merged_variables_witness :
  In "X"
    (map_keys
       (Merged.constructor
          [("ext1", Collection.Build false [("VAR", mut Replace "1")]);
           ("ext2", Collection.Build false [("VAR", mut Append "2"); ("X", mut Prepend "x")])])).
Proof.
  apply (merged_variables
           [("ext1", Collection.Build false [("VAR", mut Replace "1")]);
            ("ext2", Collection.Build false [("VAR", mut Append "2"); ("X", mut Prepend "x")])]
           "X").
  exists ("ext2", Collection.Build false [("VAR", mut Append "2"); ("X", mut Prepend "x")]).
  split; [right; left; reflexivity|right; left; reflexivity].
Defined.


Lemma getDrives_visible_mount_paths_witness :
  In "file:///data"
    (getDrives (fun path => "file://" ++ path)%string
       [Drive.Build [Mountpoint.Build "/"; Mountpoint.Build "/boot/efi"];
        Drive.Build [Mountpoint.Build "/data"]]).
Proof.
  apply (getDrives_visible_mount_paths (fun path => "file://" ++ path)%string
           [Drive.Build [Mountpoint.Build "/"; Mountpoint.Build "/boot/efi"];
            Drive.Build [Mountpoint.Build "/data"]]).
  exists "/data". split; [right; right; left; reflexivity|].
  split; [discriminate|]. split; [discriminate|reflexivity].
Defined.

(** ** Plain objects: keys, reads and writes *)

Lemma insert_index_perm n k l :
  Permutation (List.map snd (insert_index n k l)) (k :: List.map snd l).
Proof.
  induction l as [|[n' k'] t IH]; simpl; [reflexivity|].
  destruct (N.leb n n'); simpl; [reflexivity|].
  rewrite IH. apply perm_swap.
Qed.

Lemma Object_keys_perm {V : Type} (o : OrderedMap V) :
  Permutation (Object_keys o) (map_keys o).
Proof.
  unfold Object_keys, is_array_index. generalize (map_keys o) as ks.
  induction ks as [|k t IH]; simpl; [reflexivity|].
  destruct (array_index k) as [n|]; simpl.
  - rewrite insert_index_perm. simpl. now apply perm_skip.
  - symmetry. apply Permutation_cons_app. now symmetry.
Qed.

Lemma In_Object_keys {V : Type} (o : OrderedMap V) k :
  In k (Object_keys o) <-> In k (map_keys o).
Proof.
  split; apply Permutation_in; [|symmetry]; apply Object_keys_perm.
Qed.

Lemma NoDup_Object_keys {V : Type} (o : OrderedMap V) :
  map_wf o -> NoDup (Object_keys o).
Proof.
  unfold map_wf. intros W. eapply Permutation_NoDup; [|exact W].
  symmetry. apply Object_keys_perm.
Qed.

Lemma writable_own {V : Type} (o : OrderedMap V) k :
  In k (map_keys o) -> writable k o = true.
Proof.
  intros I. unfold writable. destruct (map_get k o) eqn:G; [reflexivity|].
  apply map_get_None in G. contradiction.
Qed.

Lemma writable_not_proto {V : Type} (o : OrderedMap V) k :
  k <> "__proto__" -> writable k o = true.
Proof.
  intros N. unfold writable. destruct (map_get k o); [reflexivity|].
  destruct (String.eqb_spec k "__proto__"); [contradiction|reflexivity].
Qed.

Lemma obj_set_writable {V : Type} (o : OrderedMap V) k v :
  writable k o = true -> obj_set k v o = map_set k v o.
Proof.
  unfold writable, obj_set. destruct (map_get k o); [reflexivity|].
  destruct (String.eqb k "__proto__"); [discriminate|reflexivity].
Qed.

Lemma obj_set_unwritable {V : Type} (o : OrderedMap V) k v :
  writable k o = false -> obj_set k v o = o.
Proof.
  unfold writable, obj_set. destruct (map_get k o); [discriminate|].
  destruct (String.eqb k "__proto__"); [reflexivity|discriminate].
Qed.

Lemma map_get_obj_set {V : Type} (o : OrderedMap V) k k' v :
  map_get k' (obj_set k v o)
  = if (String.eqb k' k && writable k o)%bool then Some v else map_get k' o.
Proof.
  destruct (writable k o) eqn:W.
  - rewrite obj_set_writable, map_get_set, andb_true_r by assumption. reflexivity.
  - rewrite obj_set_unwritable, andb_false_r by assumption. reflexivity.
Qed.

Lemma obj_get_obj_set {V : Type} (o : OrderedMap V) k k' v :
  obj_get k' (obj_set k v o)
  = if (String.eqb k' k && writable k o)%bool then Own v else obj_get k' o.
Proof.
  unfold obj_get at 1. rewrite map_get_obj_set.
  destruct (String.eqb k' k && writable k o)%bool; reflexivity.
Qed.

Lemma writable_obj_set {V : Type} (o : OrderedMap V) k k' v :
  writable k' (obj_set k v o) = writable k' o.
Proof.
  unfold writable at 1. rewrite map_get_obj_set.
  destruct (String.eqb_spec k' k) as [->|]; simpl; [|reflexivity].
  destruct (writable k o) eqn:W; [reflexivity|exact W].
Qed.

Lemma map_keys_obj_set_incl {V : Type} (o : OrderedMap V) k v k' :
  In k' (map_keys o) -> In k' (map_keys (obj_set k v o)).
Proof.
  intros I. destruct (writable k o) eqn:W.
  - rewrite obj_set_writable by assumption. now apply map_keys_set_incl.
  - now rewrite obj_set_unwritable.
Qed.

Lemma map_keys_obj_set_new {V : Type} (o : OrderedMap V) k v k' :
  In k' (map_keys (obj_set k v o)) -> ~ In k' (map_keys o) ->
  k' = k /\ k <> "__proto__".
Proof.
  intros I N. destruct (writable k o) eqn:W.
  - rewrite obj_set_writable in I by assumption.
    destruct (in_dec string_dec k (map_keys o)) as [Ik|Nk].
    + rewrite map_keys_set_present in I by assumption. contradiction.
    + rewrite map_keys_set_absent in I by assumption.
      apply in_app_or in I. destruct I as [I|[<-|[]]]; [contradiction|].
      split; [reflexivity|]. intros ->.
      unfold writable in W. destruct (map_get "__proto__" o) eqn:G.
      * apply map_get_In_keys in G. contradiction.
      * discriminate.
  - rewrite obj_set_unwritable in I by assumption. contradiction.
Qed.

Lemma map_wf_obj_set {V : Type} (o : OrderedMap V) k v :
  map_wf o -> map_wf (obj_set k v o).
Proof.
  intros W. destruct (writable k o) eqn:E.
  - rewrite obj_set_writable by assumption. now apply map_wf_set.
  - now rewrite obj_set_unwritable.
Qed.

(** ** Applying a merged collection, one key at a time *)

Lemma mutated_value_Own current x :
  exists s, mutated_value current x = Own (Some s).
Proof. unfold mutated_value. destruct (Owned.type x); eauto. Qed.

Lemma fold_mutated_value_Own l current :
  l <> [] -> exists s, fold_left mutated_value l current = Own (Some s).
Proof.
  revert current. induction l as [|x t IH]; intros current H; [congruence|].
  simpl. destruct t as [|y t'].
  - apply mutated_value_Own.
  - apply IH. discriminate.
Qed.


Lemma applyMutator_obj_set a (env : ProcessEnv) x :
  exists s,
    mutated_value (obj_get (ToPropertyKey a) env) x = Own (Some s)
    /\ applyMutator a env x = obj_set (ToPropertyKey a) (Some s) env.
Proof.
  unfold applyMutator, mutated_value. destruct (Owned.type x); eauto.
Qed.

Lemma obj_get_applyMutator a (env : ProcessEnv) x k :
  obj_get k (applyMutator a env x)
  = if (String.eqb k (ToPropertyKey a) && writable (ToPropertyKey a) env)%bool
    then mutated_value (obj_get (ToPropertyKey a) env) x
    else obj_get k env.
Proof.
  destruct (applyMutator_obj_set a env x) as [s [E ->]].
  rewrite obj_get_obj_set, E. reflexivity.
Qed.

Lemma writable_applyMutator a (env : ProcessEnv) x k :
  writable k (applyMutator a env x) = writable k env.
Proof.
  destruct (applyMutator_obj_set a env x) as [s [_ ->]]. apply writable_obj_set.
Qed.

Lemma writable_fold_applyMutator a l (env : ProcessEnv) k :
  writable k (fold_left (applyMutator a) l env) = writable k env.
Proof.
  revert env. induction l as [|x t IH]; intros env; simpl; [reflexivity|].
  now rewrite IH, writable_applyMutator.
Qed.

Lemma obj_get_fold_applyMutator a l (env : ProcessEnv) k :
  obj_get k (fold_left (applyMutator a) l env)
  = if (String.eqb k (ToPropertyKey a) && writable (ToPropertyKey a) env)%bool
    then fold_left mutated_value l (obj_get (ToPropertyKey a) env)
    else obj_get k env.
Proof.
  revert env. induction l as [|x t IH]; intros env; simpl.
  - destruct (String.eqb_spec k (ToPropertyKey a)) as [->|]; simpl; [|reflexivity].
    destruct (writable (ToPropertyKey a) env); reflexivity.
  - rewrite IH, writable_applyMutator, !obj_get_applyMutator, String.eqb_refl.
    simpl.
    destruct (String.eqb k (ToPropertyKey a)); simpl; [|reflexivity].
    destruct (writable (ToPropertyKey a) env); reflexivity.
Qed.

Lemma map_keys_fold_applyMutator_incl a l (env : ProcessEnv) k :
  In k (map_keys env) -> In k (map_keys (fold_left (applyMutator a) l env)).
Proof.
  revert env. induction l as [|x t IH]; intros env H; simpl; [assumption|].
  apply IH. destruct (applyMutator_obj_set a env x) as [s [_ ->]].
  now apply map_keys_obj_set_incl.
Qed.

Lemma map_keys_fold_applyMutator_new a l (env : ProcessEnv) k :
  In k (map_keys (fold_left (applyMutator a) l env)) -> ~ In k (map_keys env) ->
  k = ToPropertyKey a /\ k <> "__proto__" /\ l <> [].
Proof.
  revert env. induction l as [|x t IH]; intros env I N; simpl in I; [contradiction|].
  destruct (applyMutator_obj_set a env x) as [s [_ E]]. rewrite E in I.
  destruct (in_dec string_dec k (map_keys (obj_set (ToPropertyKey a) (Some s) env)))
    as [J|J].
  - destruct (map_keys_obj_set_new _ _ _ _ J N) as [-> P].
    split; [reflexivity|]. split; [assumption|discriminate].
  - destruct (IH _ I J) as [-> [P _]].
    split; [reflexivity|]. split; [assumption|discriminate].
Qed.

Lemma map_keys_fold_applyMutator_present a l (env : ProcessEnv) :
  In (ToPropertyKey a) (map_keys env) ->
  map_keys (fold_left (applyMutator a) l env) = map_keys env.
Proof.
  revert env. induction l as [|x t IH]; intros env H; simpl; [reflexivity|].
  destruct (applyMutator_obj_set a env x) as [s [_ E]].
  assert (K : map_keys (applyMutator a env x) = map_keys env).
  { rewrite E, obj_set_writable by now apply writable_own.
    now apply map_keys_set_present. }
  rewrite IH; [exact K|]. now rewrite K.
Qed.

Section ApplyFacts.

Variable isWindows : bool.
Variable toLowerCase : string -> string.

Lemma apply_with_spec m env :
  applyToProcessEnvironment isWindows toLowerCase m env
  = apply_with isWindows toLowerCase
      (lowerToActualVariableNames isWindows toLowerCase env) m env.
Proof. reflexivity. Qed.

Lemma writable_apply_with lower m env k :
  writable k (apply_with isWindows toLowerCase lower m env) = writable k env.
Proof.
  unfold apply_with. revert env.
  induction m as [|[V l] t IH]; intros env; simpl; [reflexivity|].
  now rewrite IH, writable_fold_applyMutator.
Qed.

Lemma obj_get_apply_with lower m env k :
  obj_get k (apply_with isWindows toLowerCase lower m env)
  = if writable k env
    then fold_left mutated_value
           (flat_map
              (fun kv =>
                 if String.eqb
                      (ToPropertyKey
                         (actualVariable isWindows toLowerCase lower (fst kv))) k
                 then snd kv else [])
              m)
           (obj_get k env)
    else obj_get k env.
Proof.
  revert env. induction m as [|[V l] t IH]; intros env.
  - simpl. destruct (writable k env); reflexivity.
  - change (apply_with isWindows toLowerCase lower ((V, l) :: t) env)
      with (apply_with isWindows toLowerCase lower t
              (fold_left
                 (applyMutator (actualVariable isWindows toLowerCase lower V)) l env)).
    rewrite IH, writable_fold_applyMutator, obj_get_fold_applyMutator. simpl.
    rewrite (String.eqb_sym k).
    destruct (String.eqb_spec
                (ToPropertyKey (actualVariable isWindows toLowerCase lower V)) k)
      as [E|_]; simpl.
    + rewrite E. destruct (writable k env); [|reflexivity].
      now rewrite fold_left_app.
    + reflexivity.
Qed.

(** What every key reads as after the application: the mutators written to
    the key, folded head first over what the key read as; a [__proto__] that
    the environment does not own is not written. *)
Lemma obj_get_applyToProcessEnvironment m env k :
  obj_get k (applyToProcessEnvironment isWindows toLowerCase m env)
  = if writable k env
    then fold_left mutated_value (writes_to isWindows toLowerCase env k m)
           (obj_get k env)
    else obj_get k env.
Proof. rewrite apply_with_spec. apply obj_get_apply_with. Qed.

Lemma map_keys_apply_with_incl lower m env k :
  In k (map_keys env) ->
  In k (map_keys (apply_with isWindows toLowerCase lower m env)).
Proof.
  unfold apply_with. revert env.
  induction m as [|[V l] t IH]; intros env H; simpl; [assumption|].
  apply IH. now apply map_keys_fold_applyMutator_incl.
Qed.

Lemma map_keys_apply_with_new lower m env k :
  In k (map_keys (apply_with isWindows toLowerCase lower m env)) ->
  ~ In k (map_keys env) ->
  k <> "__proto__"
  /\ exists V l, In (V, l) m /\ l <> []
       /\ ToPropertyKey (actualVariable isWindows toLowerCase lower V) = k.
Proof.
  unfold apply_with. revert env.
  induction m as [|[V l] t IH]; intros env I N; simpl in I; [contradiction|].
  destruct (in_dec string_dec k
              (map_keys (fold_left
                           (applyMutator (actualVariable isWindows toLowerCase lower V))
                           l env))) as [J|J].
  - destruct (map_keys_fold_applyMutator_new _ _ _ _ J N) as [E [P L]].
    split; [assumption|]. exists V, l. split; [now left|]. split; [assumption|].
    now rewrite E.
  - destruct (IH _ I J) as [P [V' [l' [I' [L' E']]]]].
    split; [assumption|]. exists V', l'. split; [now right|]. split; assumption.
Qed.

Lemma map_keys_apply_with_present lower m env :
  (forall V l, In (V, l) m ->
     In (ToPropertyKey (actualVariable isWindows toLowerCase lower V)) (map_keys env)) ->
  map_keys (apply_with isWindows toLowerCase lower m env) = map_keys env.
Proof.
  unfold apply_with. revert env.
  induction m as [|[V l] t IH]; intros env H; simpl; [reflexivity|].
  assert (E : map_keys
                (fold_left (applyMutator (actualVariable isWindows toLowerCase lower V)) l env)
              = map_keys env).
  { apply map_keys_fold_applyMutator_present. apply (H V l). now left. }
  rewrite IH; [exact E|].
  intros V' l' I. rewrite E. apply (H V' l'). now right.
Qed.

Lemma writes_to_none m env k :
  (forall V l, In (V, l) m -> resolve isWindows toLowerCase env V <> k) ->
  writes_to isWindows toLowerCase env k m = [].
Proof.
  unfold writes_to. induction m as [|[V l] t IH]; intros H; simpl; [reflexivity|].
  destruct (String.eqb_spec (resolve isWindows toLowerCase env V) k) as [E|_].
  - exfalso. apply (H V l); [now left|exact E].
  - apply IH. intros V' l' I. apply (H V' l'). now right.
Qed.

Lemma writes_to_own m env V mutators :
  map_wf m ->
  map_get V m = Some mutators ->
  (forall V', In V' (map_keys m) -> V' <> V ->
     resolve isWindows toLowerCase env V' <> resolve isWindows toLowerCase env V) ->
  writes_to isWindows toLowerCase env (resolve isWindows toLowerCase env V) m
  = mutators.
Proof.
  unfold map_wf, writes_to.
  induction m as [|[V0 l0] t IH]; simpl; intros W G H; [discriminate|].
  inversion W as [|? ? Hn Ht]; subst.
  destruct (String.eqb_spec V V0) as [->|Hne].
  - injection G as ->. rewrite String.eqb_refl.
    fold (writes_to isWindows toLowerCase env (resolve isWindows toLowerCase env V0) t).
    rewrite writes_to_none; [apply app_nil_r|].
    intros V' l' I. apply H.
    + right. unfold map_keys. apply in_map_iff. now exists (V', l').
    + intros ->. apply Hn. unfold map_keys. apply in_map_iff. now exists (V0, l').
  - destruct (String.eqb_spec (resolve isWindows toLowerCase env V0)
                (resolve isWindows toLowerCase env V)) as [E|_].
    + exfalso. apply (H V0); [now left|congruence|exact E].
    + simpl. apply IH; auto.
Qed.



Lemma resolve_case_sensitive env V :
  isWindows = false -> resolve isWindows toLowerCase env V = V.
Proof. unfold resolve, actualVariable. now intros ->. Qed.


(** The table of lower-cased names: it never holds [__proto__]; for any
    other name its last write wins, and it only holds keys of the
    environment. *)
Lemma lower_table_get (keys : list string) (lk : string) :
  let o := fold_left (fun o e => obj_set (toLowerCase e) e o) keys [] in
  map_get "__proto__" o = None
  /\ (forall a, map_get lk o = Some a -> In a keys /\ toLowerCase a = lk)
  /\ (lk <> "__proto__" ->
      (map_get lk o = None <-> forall k, In k keys -> toLowerCase k <> lk)).
Proof.
  induction keys as [|e l IH] using rev_ind; simpl.
  - split; [reflexivity|]. split; [discriminate|]. intros _. split; auto.
  - rewrite fold_left_app. simpl. rewrite !map_get_obj_set.
    destruct IH as [IH0 [IH1 IH2]].
    assert (W : writable (toLowerCase e)
                  (fold_left (fun o e0 => obj_set (toLowerCase e0) e0 o) l [])
                = negb (String.eqb (toLowerCase e) "__proto__")).
    { unfold writable.
      destruct (map_get (toLowerCase e)
                  (fold_left (fun o e0 => obj_set (toLowerCase e0) e0 o) l []))
        eqn:G; [|reflexivity].
      destruct (String.eqb_spec (toLowerCase e) "__proto__") as [E|]; [|reflexivity].
      rewrite E in G. congruence. }
    rewrite W. split; [|split].
    + destruct (String.eqb_spec "__proto__" (toLowerCase e)) as [<-|]; simpl;
        [exact IH0|exact IH0].
    + destruct (String.eqb_spec lk (toLowerCase e)) as [->|Hne]; simpl.
      * destruct (String.eqb (toLowerCase e) "__proto__"); simpl.
        -- intros a Ha. destruct (IH1 a Ha). split; [apply in_or_app; now left|assumption].
        -- intros a [= <-]. split; [apply in_or_app; right; now left|reflexivity].
      * intros a Ha. destruct (IH1 a Ha). split; [apply in_or_app; now left|assumption].
    + intros Np. specialize (IH2 Np).
      destruct (String.eqb_spec lk (toLowerCase e)) as [->|Hne]; simpl.
      * destruct (String.eqb_spec (toLowerCase e) "__proto__"); [contradiction|].
        simpl. split; [discriminate|]. intros H. exfalso.
        apply (H e); [apply in_or_app; right; now left|reflexivity].
      * rewrite IH2. split.
        -- intros H k I. apply in_app_or in I.
           destruct I as [I|[<-|[]]]; [auto|congruence].
        -- intros H k I. apply H, in_or_app. now left.
Qed.

End ApplyFacts.



(** ** Applying a merged collection: the claims *)

(** C3. The code does not treat every absent key as the empty string. On a
    case-sensitive platform, an Append of "v" to the variable "constructor"
    on the empty snapshot ends as the text of the function [Object] followed
    by "v", not as "v": the read of the absent key falls through to
    [Object.prototype].  A Replace of the variable "__proto__" on the empty
    snapshot stores nothing. *)
Theorem append_reads_inherited_member (toLowerCase : string -> string) :
  applyToProcessEnvironment false toLowerCase
    [("constructor", [owned "ext" Append "v"])] []
  = [("constructor", Some "function Object() { [native code] }v")]
  /\ applyToProcessEnvironment false toLowerCase
       [("__proto__", [owned "ext" Replace "w"])] []
     = []
  /\ obj_get "__proto__"
       (applyToProcessEnvironment false toLowerCase
          [("__proto__", [owned "ext" Replace "w"])] [])
     = FromPrototype ObjectPrototype.
Proof. repeat split. Qed.

(** C5. On a case-insensitive platform the code does not resolve every
    variable name without a matching key to the name itself: with the empty
    snapshot, the name "CONSTRUCTOR" resolves to the text of the function
    [Object], which the table of lower-cased names inherits under
    "constructor", and a Replace of "CONSTRUCTOR" by "v" creates a key of
    that text instead of the key "CONSTRUCTOR". *)
Theorem constructor_resolves_to_function_text :
  resolve true toLowerCase_ascii [] "CONSTRUCTOR"
  = "function Object() { [native code] }"
  /\ applyToProcessEnvironment true toLowerCase_ascii
       [("CONSTRUCTOR", [owned "ext" Replace "v"])] []
     = [("function Object() { [native code] }", Some "v")].
Proof. split; reflexivity. Qed.




(** C10. On a case-insensitive platform the code writes a key that no
    variable name of the merged collection resolves to by its name or by a
    case-insensitive match: with a snapshot that only has "HOME", a Replace
    of "CONSTRUCTOR" by "v" creates a key that is the text of the function
    [Object] (it is not "CONSTRUCTOR", and its lower-casing is not that of
    "CONSTRUCTOR") and leaves "CONSTRUCTOR" absent. *)
Theorem apply_writes_key_of_function_text :
  applyToProcessEnvironment true toLowerCase_ascii
    [("CONSTRUCTOR", [owned "ext" Replace "v"])] [("HOME", Some "/root")]
  = [("HOME", Some "/root"); ("function Object() { [native code] }", Some "v")]
  /\ "function Object() { [native code] }" <> "CONSTRUCTOR"
  /\ toLowerCase_ascii "function Object() { [native code] }"
     <> toLowerCase_ascii "CONSTRUCTOR"
  /\ map_get "CONSTRUCTOR"
       (applyToProcessEnvironment true toLowerCase_ascii
          [("CONSTRUCTOR", [owned "ext" Replace "v"])] [("HOME", Some "/root")])
     = None.
Proof. repeat split; discriminate. Qed.

(** ** From the registry to the environment *)

Lemma string_app_assoc (a b c : string) : ((a ++ b) ++ c = a ++ (b ++ c))%string.
Proof. induction a as [|x a IH]; simpl; [reflexivity|now rewrite IH]. Qed.

Lemma string_app_nil_r (a : string) : (a ++ "" = a)%string.
Proof. induction a as [|x a IH]; simpl; [reflexivity|now rewrite IH]. Qed.

Lemma joined_app l1 l2 : joined (l1 ++ l2) = (joined l1 ++ joined l2)%string.
Proof.
  induction l1 as [|x t IH]; simpl; [reflexivity|].
  now rewrite IH, string_app_assoc.
Qed.

Lemma fold_appends l current :
  Forall (fun x => Owned.type x = Append) l -> l <> [] ->
  fold_left mutated_value l current
  = Own (Some (or_empty current ++ joined (List.map Owned.value l))%string).
Proof.
  intros F. revert current. induction F as [|x t Hx F IH]; intros current N.
  - congruence.
  - simpl. destruct t as [|y t'].
    + simpl. unfold mutated_value. rewrite Hx. now rewrite string_app_nil_r.
    + rewrite IH by discriminate. unfold mutated_value at 1. rewrite Hx.
      simpl. now rewrite string_app_assoc.
Qed.

Lemma fold_prepends l current :
  Forall (fun x => Owned.type x = Prepend) l -> l <> [] ->
  fold_left mutated_value l current
  = Own (Some (joined (rev (List.map Owned.value l)) ++ or_empty current)%string).
Proof.
  intros F. revert current. induction F as [|x t Hx F IH]; intros current N.
  - congruence.
  - simpl. destruct t as [|y t'].
    + simpl. unfold mutated_value. rewrite Hx. now rewrite string_app_nil_r.
    + rewrite IH by discriminate. unfold mutated_value at 1. rewrite Hx.
      rewrite joined_app. simpl. now rewrite string_app_nil_r, string_app_assoc.
Qed.

Lemma apply_case_sensitive (toLowerCase : string -> string)
    (m : Merged.t) (env : ProcessEnv) (V : string) :
  map_wf m ->
  V <> "__proto__" \/ In V (map_keys env) ->
  obj_get V (applyToProcessEnvironment false toLowerCase m env)
  = fold_left mutated_value (entry_of V m) (obj_get V env).
Proof.
  intros W Hw. rewrite obj_get_applyToProcessEnvironment.
  assert (Ww : writable V env = true).
  { destruct Hw; [now apply writable_not_proto|now apply writable_own]. }
  rewrite Ww. unfold entry_of.
  destruct (map_get V m) as [entry|] eqn:G.
  - rewrite <- (resolve_case_sensitive false toLowerCase env V eq_refl) at 1.
    rewrite (writes_to_own false toLowerCase m env V entry W G); [reflexivity|].
    intros V' _ H. now rewrite !resolve_case_sensitive.
  - rewrite writes_to_none; [reflexivity|].
    intros V' l I. rewrite resolve_case_sensitive by reflexivity.
    intros ->. apply map_get_None in G. apply G.
    unfold map_keys. apply in_map_iff. now exists (V, l).
Qed.

Lemma all_of_type_mutators_for ty V cs :
  all_of_type ty V cs ->
  Forall (fun x => Owned.type x = ty) (mutators_for V cs).
Proof.
  unfold all_of_type, mutators_for. intros H.
  apply Forall_forall. intros x Hx.
  apply in_flat_map in Hx. destruct Hx as [kv [Hkv Hx]].
  destruct (map_get V (Collection.map (snd kv))) as [m|] eqn:G; [|destruct Hx].
  destruct Hx as [<-|[]]. simpl. eapply H; eassumption.
Qed.

Lemma entry_of_no_replace V cs :
  collections_wf cs ->
  Forall (fun x => is_replace x = false) (mutators_for V cs) ->
  entry_of V (Merged.constructor cs) = rev (mutators_for V cs).
Proof.
  intros W F. rewrite entry_of_get, map_get_constructor, contributions_wf by assumption.
  pose proof (upto_replace_no_replace _ F) as U.
  destruct (mutators_for V cs) as [|x t]; [reflexivity|]. now rewrite U.
Qed.

(** X11. On a case-sensitive platform, after applying the merged collection
    of a registry, a variable other than "__proto__" reads as its entry
    folded, head first, over what it read as before (the text of the
    inherited member for a key such as "constructor" that the snapshot does
    not own); a variable without an entry reads as before. *)
Theorem apply_merged_case_sensitive (toLowerCase : string -> string)
    (collections : OrderedMap Collection.t) (env : ProcessEnv) (V : string) :
  V <> "__proto__" ->
  obj_get V
    (applyToProcessEnvironment false toLowerCase (Merged.constructor collections) env)
  = fold_left mutated_value (entry_of V (Merged.constructor collections))
      (obj_get V env).
Proof.
  intros N. apply apply_case_sensitive; [apply constructor_wf|now left].
Qed.

Lemma apply_merged_case_sensitive_witness :
  obj_get "constructor"
    (applyToProcessEnvironment false toLowerCase_ascii
       (Merged.constructor
          [("ext1", Collection.Build false [("constructor", mut Append "v")])])
       [])
  = Own (Some "function Object() { [native code] }v").
Proof.
  apply (apply_merged_case_sensitive toLowerCase_ascii
           [("ext1", Collection.Build false [("constructor", mut Append "v")])]
           [] "constructor").
  discriminate.
Defined.

(** X12. On a case-sensitive platform, when all the mutators that the
    contributors hold for a variable other than "__proto__" are Appends, the
    variable ends as the string it read as before (empty when absent or
    null, the text of the inherited member for a key such as "constructor")
    followed by the appended values, the one of the contributor registered
    last first. *)
Theorem appends_latest_first (toLowerCase : string -> string)
    (collections : OrderedMap Collection.t) (env : ProcessEnv) (V : string) :
  V <> "__proto__" ->
  collections_wf collections ->
  all_of_type Append V collections ->
  mutators_for V collections <> [] ->
  obj_get V
    (applyToProcessEnvironment false toLowerCase (Merged.constructor collections) env)
  = Own (Some (or_empty (obj_get V env)
               ++ joined (rev (List.map Owned.value (mutators_for V collections))))%string).
Proof.
  intros Np W A N. pose proof (all_of_type_mutators_for _ _ _ A) as F.
  rewrite apply_case_sensitive; [|apply constructor_wf|now left].
  rewrite entry_of_no_replace; [|assumption|].
  - rewrite fold_appends.
    + now rewrite map_rev.
    + apply Forall_rev. exact F.
    + intros E. apply N. rewrite <- (rev_involutive (mutators_for V collections)), E.
      reflexivity.
  - eapply Forall_impl; [|exact F]. intros x Hx. unfold is_replace. now rewrite Hx.
Qed.

Lemma appends_latest_first_witness :
  obj_get "VAR"
    (applyToProcessEnvironment false toLowerCase_ascii
       (Merged.constructor
          [("ext1", Collection.Build false [("VAR", mut Append "1")]);
           ("ext2", Collection.Build false [("VAR", mut Append "2")]);
           ("ext3", Collection.Build false [("VAR", mut Append "3")])])
       [("VAR", Some "0")])
  = Own (Some "0321").
Proof.
  apply (appends_latest_first toLowerCase_ascii
           [("ext1", Collection.Build false [("VAR", mut Append "1")]);
            ("ext2", Collection.Build false [("VAR", mut Append "2")]);
            ("ext3", Collection.Build false [("VAR", mut Append "3")])]
           [("VAR", Some "0")] "VAR").
  - discriminate.
  - repeat constructor; simpl; intuition discriminate.
  - intros kv m [<-|[<-|[<-|[]]]]; simpl; intros [= <-]; reflexivity.
  - discriminate.
Defined.

(** X13. On a case-sensitive platform, when all the mutators that the
    contributors hold for a variable other than "__proto__" are Prepends,
    the variable ends as the prepended values in registry order, the one of
    the contributor registered first first, followed by the string it read
    as before. *)
Theorem prepends_registry_order (toLowerCase : string -> string)
    (collections : OrderedMap Collection.t) (env : ProcessEnv) (V : string) :
  V <> "__proto__" ->
  collections_wf collections ->
  all_of_type Prepend V collections ->
  mutators_for V collections <> [] ->
  obj_get V
    (applyToProcessEnvironment false toLowerCase (Merged.constructor collections) env)
  = Own (Some (joined (List.map Owned.value (mutators_for V collections))
               ++ or_empty (obj_get V env))%string).
Proof.
  intros Np W A N. pose proof (all_of_type_mutators_for _ _ _ A) as F.
  rewrite apply_case_sensitive; [|apply constructor_wf|now left].
  rewrite entry_of_no_replace; [|assumption|].
  - rewrite fold_prepends.
    + now rewrite map_rev, rev_involutive.
    + apply Forall_rev. exact F.
    + intros E. apply N. rewrite <- (rev_involutive (mutators_for V collections)), E.
      reflexivity.
  - eapply Forall_impl; [|exact F]. intros x Hx. unfold is_replace. now rewrite Hx.
Qed.

Lemma prepends_registry_order_witness :
  obj_get "VAR"
    (applyToProcessEnvironment false toLowerCase_ascii
       (Merged.constructor
          [("ext1", Collection.Build false [("VAR", mut Prepend "1")]);
           ("ext2", Collection.Build false [("VAR", mut Prepend "2")]);
           ("ext3", Collection.Build false [("VAR", mut Prepend "3")])])
       [("VAR", Some "0")])
  = Own (Some "1230").
Proof.
  apply (prepends_registry_order toLowerCase_ascii
           [("ext1", Collection.Build false [("VAR", mut Prepend "1")]);
            ("ext2", Collection.Build false [("VAR", mut Prepend "2")]);
            ("ext3", Collection.Build false [("VAR", mut Prepend "3")])]
           [("VAR", Some "0")] "VAR").
  - discriminate.
  - repeat constructor; simpl; intuition discriminate.
  - intros kv m [<-|[<-|[<-|[]]]]; simpl; intros [= <-]; reflexivity.
  - discriminate.
Defined.

(** ** The keys of the environment after the application *)

(** X14. The application removes no key of the snapshot, and every key that
    [Object.keys] lists afterwards and did not list before is a key other
    than "__proto__" that some variable with a non-empty list resolves
    to. *)
Theorem apply_created_keys_resolved
    (isWindows : bool) (toLowerCase : string -> string)
    (m : Merged.t) (env : ProcessEnv) :
  (forall k, In k (Object_keys env) ->
     In k (Object_keys (applyToProcessEnvironment isWindows toLowerCase m env)))
  /\ (forall k,
        In k (Object_keys (applyToProcessEnvironment isWindows toLowerCase m env)) ->
        ~ In k (Object_keys env) ->
        k <> "__proto__"
        /\ exists V l, In (V, l) m /\ l <> []
                       /\ resolve isWindows toLowerCase env V = k).
Proof.
  split.
  - intros k I. apply In_Object_keys. apply In_Object_keys in I.
    rewrite apply_with_spec. now apply map_keys_apply_with_incl.
  - intros k I N. apply In_Object_keys in I. rewrite In_Object_keys in N.
    rewrite apply_with_spec in I.
    apply (map_keys_apply_with_new _ _ _ _ _ _ I N).
Qed.

Lemma apply_created_keys_resolved_witness :
  exists V l,
    In (V, l) [("PATH", [owned "e" Append ":/opt/bin"]); ("1", [owned "e" Replace "n"])]
    /\ l <> []
    /\ resolve true toLowerCase_ascii [("Path", Some "/usr/bin")] V = "1".
Proof.
  destruct (apply_created_keys_resolved true toLowerCase_ascii
              [("PATH", [owned "e" Append ":/opt/bin"]); ("1", [owned "e" Replace "n"])]
              [("Path", Some "/usr/bin")]) as [_ H].
  apply (H "1").
  - left. reflexivity.
  - intros [E|[]]. discriminate E.
Defined.

Lemma fold_obj_set_no_match (f : string -> string) (l : list string)
    (o : OrderedMap string) (lk : string) :
  (forall a, In a l -> f a <> lk) ->
  map_get lk (fold_left (fun o e => obj_set (f e) e o) l o) = map_get lk o.
Proof.
  revert o. induction l as [|e t IH]; intros o H; simpl; [reflexivity|].
  rewrite IH by (intros a I; apply H; now right).
  rewrite map_get_obj_set.
  destruct (String.eqb_spec lk (f e)) as [->|]; [|reflexivity].
  exfalso. apply (H e); [now left|reflexivity].
Qed.

(** X15. On a case-insensitive platform, when several keys of the snapshot
    have the lower-casing of a variable name (other than "__proto__"), the
    variable resolves to the last of them in the order of [Object.keys] (the
    empty key apart), and a mutator of the variable is written to that
    key. *)
Theorem resolve_last_matching_key (toLowerCase : string -> string)
    (env : ProcessEnv) (earlier later : list string) (k V : string) (x : Owned.t) :
  Object_keys env = earlier ++ k :: later ->
  toLowerCase k = toLowerCase V ->
  k <> "" ->
  toLowerCase V <> "__proto__" ->
  (forall k', In k' later -> toLowerCase k' <> toLowerCase V) ->
  resolve true toLowerCase env V = k
  /\ obj_get k (applyToProcessEnvironment true toLowerCase [(V, [x])] env)
     = mutated_value (obj_get k env) x.
Proof.
  intros K E N Np H.
  assert (R : resolve true toLowerCase env V = k).
  { unfold resolve, lowerToActualVariableNames, actualVariable.
    rewrite K, fold_left_app. simpl.
    unfold obj_get. rewrite fold_obj_set_no_match by exact H.
    rewrite map_get_obj_set, E, String.eqb_refl.
    rewrite writable_not_proto by exact Np. simpl.
    destruct (String.eqb_spec k ""); [contradiction|reflexivity]. }
  split; [exact R|].
  rewrite obj_get_applyToProcessEnvironment.
  rewrite writable_own.
  - unfold writes_to. simpl. rewrite R, String.eqb_refl. reflexivity.
  - apply In_Object_keys. rewrite K. apply in_or_app. right. now left.
Qed.

Lemma resolve_last_matching_key_witness :
  resolve true toLowerCase_ascii
    [("PATH", Some "a"); ("Path", Some "b"); ("HOME", None)] "path"
  = "Path".
Proof.
  apply (resolve_last_matching_key toLowerCase_ascii
           [("PATH", Some "a"); ("Path", Some "b"); ("HOME", None)]
           ["PATH"] ["HOME"] "Path" "path" (owned "e" Replace "v")).
  - reflexivity.
  - reflexivity.
  - discriminate.
  - discriminate.
  - intros k' [<-|[]]. discriminate.
Defined.

(** ** Applying a merged collection: the general form *)

(** X22. After the application every key reads as the mutators written to
    it (those of the variables that resolve to it, in the order of the
    merged collection, each list head first) folded over what the key read
    as before; Append and Prepend concatenate with the empty string for an
    absent or null key and with the text of the inherited member for a key
    that is only found on [Object.prototype]; a "__proto__" that the
    snapshot does not own is never written. *)
Theorem apply_folds_writes_in_order
    (isWindows : bool) (toLowerCase : string -> string)
    (m : Merged.t) (env : ProcessEnv) (k : string) :
  obj_get k (applyToProcessEnvironment isWindows toLowerCase m env)
  = if writable k env
    then fold_left mutated_value (writes_to isWindows toLowerCase env k m)
           (obj_get k env)
    else obj_get k env.
Proof. apply obj_get_applyToProcessEnvironment. Qed.

(** X23. On a case-insensitive platform, for a variable name whose
    lower-casing is not the name of a member of [Object.prototype]: the name
    resolves to a key of the snapshot of the same lower-casing when there is
    one, and to itself otherwise; a mutator of the variable is written to
    the key it resolves to; and when every variable of the merged collection
    resolves to a key of the snapshot, the application creates no key. *)
Theorem resolve_ordinary_name (toLowerCase : string -> string)
    (m : Merged.t) (env : ProcessEnv) (V : string) (x : Owned.t) :
  (forall s, toLowerCase s = toLowerCase "" -> s = "") ->
  Object_prototype (toLowerCase V) = None ->
  ((exists k, In k (Object_keys env) /\ toLowerCase k = toLowerCase V) ->
   In (resolve true toLowerCase env V) (Object_keys env)
   /\ toLowerCase (resolve true toLowerCase env V) = toLowerCase V)
  /\ ((forall k, In k (Object_keys env) -> toLowerCase k <> toLowerCase V) ->
      resolve true toLowerCase env V = V)
  /\ (writable (resolve true toLowerCase env V) env = true ->
      obj_get (resolve true toLowerCase env V)
        (applyToProcessEnvironment true toLowerCase [(V, [x])] env)
      = mutated_value (obj_get (resolve true toLowerCase env V) env) x)
  /\ ((forall V' l, In (V', l) m ->
         In (resolve true toLowerCase env V') (Object_keys env)) ->
      Object_keys (applyToProcessEnvironment true toLowerCase m env)
      = Object_keys env).
Proof.
  intros Hlow Hp.
  assert (Np : toLowerCase V <> "__proto__").
  { intros E. rewrite E in Hp. discriminate. }
  destruct (lower_table_get toLowerCase (Object_keys env) (toLowerCase V))
    as [_ [T1 T2]].
  simpl in T1, T2. specialize (T2 Np).
  split; [|split; [|split]].
  - intros [k [I E]].
    unfold resolve, lowerToActualVariableNames, actualVariable, obj_get.
    destruct (map_get (toLowerCase V)
                (fold_left (fun o e => obj_set (toLowerCase e) e o) (Object_keys env) []))
      as [a|] eqn:G.
    + destruct (T1 a eq_refl) as [Ia Ea]. simpl.
      destruct (String.eqb_spec a "") as [->|_]; [|auto].
      assert (V = "") as -> by (apply Hlow; congruence). auto.
    + exfalso. destruct T2 as [T2 _]. apply (T2 eq_refl k I E).
  - intros N.
    unfold resolve, lowerToActualVariableNames, actualVariable, obj_get.
    destruct T2 as [_ T2]. now rewrite (T2 N), Hp.
  - intros W. rewrite obj_get_applyToProcessEnvironment, W.
    unfold writes_to. simpl. now rewrite String.eqb_refl.
  - intros H.
    assert (K : map_keys (applyToProcessEnvironment true toLowerCase m env)
                = map_keys env).
    { rewrite apply_with_spec. apply map_keys_apply_with_present.
      intros V' l I. apply In_Object_keys. apply (H V' l I). }
    unfold Object_keys. now rewrite K.
Qed.

Lemma resolve_ordinary_name_witness :
  resolve true toLowerCase_ascii [("Path", Some "/usr/bin")] "PATH" = "Path"
  /\ obj_get "Path"
       (applyToProcessEnvironment true toLowerCase_ascii
          [("PATH", [owned "ext" Append ":/opt/bin"])] [("Path", Some "/usr/bin")])
     = Own (Some "/usr/bin:/opt/bin")
  /\ Object_keys
       (applyToProcessEnvironment true toLowerCase_ascii
          [("PATH", [owned "ext" Append ":/opt/bin"])] [("Path", Some "/usr/bin")])
     = ["Path"].
Proof.
  assert (Hlow : forall s, toLowerCase_ascii s = toLowerCase_ascii "" -> s = "").
  { intros [|c s]; simpl; [reflexivity|discriminate]. }
  destruct (resolve_ordinary_name toLowerCase_ascii
              [("PATH", [owned "ext" Append ":/opt/bin"])]
              [("Path", Some "/usr/bin")] "PATH" (owned "ext" Append ":/opt/bin")
              Hlow eq_refl)
    as [Hmatch [_ [Hwrite Hkeys]]].
  split; [reflexivity|]. split.
  - apply Hwrite. reflexivity.
  - apply Hkeys. intros V' l [E|[]]. injection E as <- <-. left. reflexivity.
Defined.

(** X24. The application leaves every key that no variable of the merged
    collection resolves to reading as before; a key either reads as before
    or holds a string (the applier stores neither null nor undefined); and
    applying the empty merged collection leaves the snapshot as it is. *)
Theorem apply_frame
    (isWindows : bool) (toLowerCase : string -> string)
    (m : Merged.t) (env : ProcessEnv) :
  (forall k,
     (forall V l, In (V, l) m -> resolve isWindows toLowerCase env V <> k) ->
     obj_get k (applyToProcessEnvironment isWindows toLowerCase m env)
     = obj_get k env)
  /\ (forall k,
        obj_get k (applyToProcessEnvironment isWindows toLowerCase m env)
        = obj_get k env
        \/ exists s,
             obj_get k (applyToProcessEnvironment isWindows toLowerCase m env)
             = Own (Some s))
  /\ applyToProcessEnvironment isWindows toLowerCase [] env = env.
Proof.
  split; [|split].
  - intros k H. rewrite obj_get_applyToProcessEnvironment, writes_to_none by assumption.
    now destruct (writable k env).
  - intros k. rewrite obj_get_applyToProcessEnvironment.
    destruct (writable k env); [|now left].
    destruct (writes_to isWindows toLowerCase env k m) as [|y t] eqn:E.
    + now left.
    + right. apply fold_mutated_value_Own. discriminate.
  - reflexivity.
Qed.

Lemma apply_frame_witness :
  obj_get "HOME"
    (applyToProcessEnvironment true toLowerCase_ascii
       [("CONSTRUCTOR", [owned "ext" Replace "v"])] [("HOME", None)])
  = Own None.
Proof.
  destruct (apply_frame true toLowerCase_ascii
              [("CONSTRUCTOR", [owned "ext" Replace "v"])] [("HOME", None)])
    as [Hframe _].
  apply Hframe. intros V l [E|[]]. injection E as <- <-. discriminate.
Defined.

(** ** The environment read at start-up *)

Lemma map_get_In_wf {V : Type} (m : OrderedMap V) k v :
  map_wf m -> In (k, v) m -> map_get k m = Some v.
Proof.
  unfold map_wf. induction m as [|[k0 v0] t IH]; simpl; intros W; [tauto|].
  inversion W as [|? ? Hn Wt]; subst. intros [[= -> ->]|I].
  - now rewrite String.eqb_refl.
  - destruct (String.eqb_spec k k0) as [->|]; [|auto].
    exfalso. apply Hn. unfold map_keys. apply in_map_iff. now exists (k0, v).
Qed.

Section EnvsFacts.

Variable isWindows : bool.
Variable toLowerCase : string -> string.
Variable prEnv : NodeProcessEnv.

Lemma fold_envs_set (keys : list string) (envs : Envs.t) :
  map_get "__proto__" (Envs.own envs) = None ->
  let result :=
    fold_left (fun envs key => envs_set (keyName_of isWindows toLowerCase key) (variable_of isWindows toLowerCase prEnv key) envs) keys envs in
  Envs.own result
  = fold_left (fun o e => map_set (keyName_of isWindows toLowerCase e) (variable_of isWindows toLowerCase prEnv e) o)
      (filter (fun e => negb (String.eqb (keyName_of isWindows toLowerCase e) "__proto__")) keys)
      (Envs.own envs)
  /\ ((forall e, In e keys -> keyName_of isWindows toLowerCase e <> "__proto__") ->
      Envs.prototype result = Envs.prototype envs)
  /\ (forall p, Envs.prototype result = Some p ->
      Envs.prototype envs = Some p
      \/ exists e, In e keys /\ keyName_of isWindows toLowerCase e = "__proto__" /\ p = variable_of isWindows toLowerCase prEnv e).
Proof.
  revert envs. induction keys as [|e t IH]; intros envs Hp; simpl.
  - split; [reflexivity|]. split; [reflexivity|]. intros p E. now left.
  - assert (S : envs_set (keyName_of isWindows toLowerCase e) (variable_of isWindows toLowerCase prEnv e) envs
                = if String.eqb (keyName_of isWindows toLowerCase e) "__proto__"
                  then Envs.Build (Envs.own envs) (Some (variable_of isWindows toLowerCase prEnv e))
                  else Envs.Build (map_set (keyName_of isWindows toLowerCase e) (variable_of isWindows toLowerCase prEnv e) (Envs.own envs))
                         (Envs.prototype envs)).
    { unfold envs_set.
      destruct (String.eqb_spec (keyName_of isWindows toLowerCase e) "__proto__") as [E|N].
      - now rewrite E, Hp.
      - now destruct (map_get (keyName_of isWindows toLowerCase e) (Envs.own envs)). }
    rewrite S. clear S.
    destruct (String.eqb_spec (keyName_of isWindows toLowerCase e) "__proto__") as [E|N]; simpl.
    + destruct (IH (Envs.Build (Envs.own envs) (Some (variable_of isWindows toLowerCase prEnv e))) Hp)
        as [I1 [I2 I3]].
      split; [exact I1|]. split.
      * intros H. exfalso. apply (H e); [now left|exact E].
      * intros p Ep. destruct (I3 p Ep) as [Q|[e' [Ie' [Ee' ->]]]].
        -- simpl in Q. injection Q as <-. right. exists e. auto.
        -- right. exists e'. auto.
    + destruct (IH (Envs.Build (map_set (keyName_of isWindows toLowerCase e) (variable_of isWindows toLowerCase prEnv e) (Envs.own envs))
                      (Envs.prototype envs))) as [I1 [I2 I3]].
      { simpl. rewrite map_get_set.
        destruct (String.eqb_spec "__proto__" (keyName_of isWindows toLowerCase e)); [congruence|exact Hp]. }
      split; [exact I1|]. split.
      * intros H. apply I2. intros e' Ie'. apply H. now right.
      * intros p Ep. destruct (I3 p Ep) as [Q|[e' [Ie' [Ee' ->]]]].
        -- now left.
        -- right. exists e'. auto.
Qed.

Lemma constructor_envs_own :
  Envs.own (constructor_envs isWindows toLowerCase prEnv)
  = fold_left (fun o e => map_set (keyName_of isWindows toLowerCase e) (variable_of isWindows toLowerCase prEnv e) o)
      (filter (fun e => negb (String.eqb (keyName_of isWindows toLowerCase e) "__proto__")) (map_keys prEnv))
      [].
Proof.
  apply (fold_envs_set (map_keys prEnv) (Envs.Build [] None)). reflexivity.
Qed.

Lemma constructor_envs_own_wf :
  map_wf (Envs.own (constructor_envs isWindows toLowerCase prEnv)).
Proof. rewrite constructor_envs_own. apply map_wf_fold_set_keys. Qed.

(** An own property of [this.envs] is the variable of a key of
    [process.env], stored under its name. *)
Lemma constructor_envs_get (k : string) :
  (forall x, map_get k (Envs.own (constructor_envs isWindows toLowerCase prEnv)) = Some x ->
     exists key, In key (map_keys prEnv) /\ keyName_of isWindows toLowerCase key = k /\ x = variable_of isWindows toLowerCase prEnv key)
  /\ (k <> "__proto__" ->
      (map_get k (Envs.own (constructor_envs isWindows toLowerCase prEnv)) = None
       <-> forall key, In key (map_keys prEnv) -> keyName_of isWindows toLowerCase key <> k)).
Proof.
  rewrite constructor_envs_own.
  destruct (map_get_fold_set_keys (keyName_of isWindows toLowerCase) (variable_of isWindows toLowerCase prEnv)
              (filter (fun e => negb (String.eqb (keyName_of isWindows toLowerCase e) "__proto__")) (map_keys prEnv))
              k) as [H1 H2].
  simpl in H1, H2. split.
  - intros x Hx. destruct (H1 x Hx) as [a [Ia [Ea ->]]].
    apply filter_In in Ia. exists a. tauto.
  - intros Np. rewrite H2. split.
    + intros H key I E. apply (H key); [|exact E].
      apply filter_In. split; [assumption|].
      destruct (String.eqb_spec (keyName_of isWindows toLowerCase key) "__proto__"); [congruence|reflexivity].
    + intros H key I. apply filter_In in I. now apply H.
Qed.

Lemma constructor_envs_prototype_None :
  (forall key, In key (map_keys prEnv) -> keyName_of isWindows toLowerCase key <> "__proto__") ->
  Envs.prototype (constructor_envs isWindows toLowerCase prEnv) = None.
Proof.
  intros H.
  destruct (fold_envs_set (map_keys prEnv) (Envs.Build [] None) eq_refl) as [_ [P _]].
  apply (P H).
Qed.

Lemma constructor_envs_prototype_Some p :
  Envs.prototype (constructor_envs isWindows toLowerCase prEnv) = Some p ->
  exists key, In key (map_keys prEnv) /\ keyName_of isWindows toLowerCase key = "__proto__" /\ p = variable_of isWindows toLowerCase prEnv key.
Proof.
  intros H.
  destruct (fold_envs_set (map_keys prEnv) (Envs.Build [] None) eq_refl) as [_ [_ P]].
  destruct (P p H) as [Q|Q]; [discriminate|exact Q].
Qed.

Lemma getVariables_own (envs : Envs.t) (ks : list string) :
  (forall k, In k ks -> In k (map_keys (Envs.own envs))) ->
  exists variables,
    List.map (fun key => envs_get key envs) ks = List.map ReadVariable variables
    /\ Forall2 (fun k x => map_get k (Envs.own envs) = Some x) ks variables.
Proof.
  induction ks as [|k t IH]; intros H.
  - exists []. split; constructor.
  - destruct IH as [vars [E F]]; [intros k' I; apply H; now right|].
    destruct (map_get k (Envs.own envs)) as [x|] eqn:G.
    + exists (x :: vars). split; [|now constructor].
      simpl. unfold envs_get at 1. now rewrite G, E.
    + exfalso. apply map_get_None in G. apply G, H. now left.
Qed.

End EnvsFacts.

(** X16. On a case-sensitive platform, when [process.env] has no key
    "__proto__", [getValue(key)] returns the variable of that name with the
    value that [process.env] holds for it when [process.env] has the key;
    for any other name it returns what [Object.prototype] has under that
    name (the function [Object] for "constructor"), which is [undefined]
    only when the name is not one of its members. *)
Theorem getValue_case_sensitive (toLowerCase : string -> string)
    (prEnv : NodeProcessEnv) (key : string) :
  map_get "__proto__" prEnv = None ->
  getValue false toLowerCase (constructor_envs false toLowerCase prEnv) key
  = match map_get key prEnv with
    | Some v => ReadVariable (EnvVariable.Build key v)
    | None =>
        match Object_prototype key with
        | Some i => ReadInherited i
        | None => ReadUndefined
        end
    end.
Proof.
  intros Hp.
  assert (Nk : forall k, In k (map_keys prEnv) -> k <> "__proto__").
  { intros k I ->. apply map_get_None in Hp. contradiction. }
  unfold getValue, envs_get.
  destruct (constructor_envs_get false toLowerCase prEnv key) as [H1 H2].
  rewrite (constructor_envs_prototype_None false toLowerCase prEnv Nk).
  destruct (map_get key (Envs.own (constructor_envs false toLowerCase prEnv)))
    as [x|] eqn:G.
  - destruct (H1 x eq_refl) as [a [I [E ->]]]. unfold keyName_of in E. subst a.
    unfold variable_of, keyName_of, prop_read.
    destruct (map_get key prEnv) as [v|] eqn:Ga; [reflexivity|].
    apply map_get_None in Ga. contradiction.
  - destruct (map_get key prEnv) as [v|] eqn:Gk; [|reflexivity].
    exfalso. pose proof (map_get_In_keys _ _ _ Gk) as I.
    destruct (H2 (Nk key I)) as [H2' _]. now apply (H2' eq_refl key I).
Qed.

Lemma getValue_case_sensitive_witness :
  getValue false toLowerCase_ascii
    (constructor_envs false toLowerCase_ascii [("PATH", Some "/usr/bin")])
    "constructor"
  = ReadInherited ObjectFunction.
Proof.
  apply (getValue_case_sensitive toLowerCase_ascii
           [("PATH", Some "/usr/bin")] "constructor").
  reflexivity.
Defined.

(** X17. On a case-insensitive platform, when no key of [process.env] has
    the lower-casing "__proto__": for a name whose lower-casing is that of
    a key of [process.env], [getValue] returns a variable named by that
    lower-casing, holding the value of such a key; for a name that matches
    no key it returns what [Object.prototype] has under the lower-cased
    name; and two names of the same lower-casing get the same answer. *)
Theorem getValue_case_insensitive (toLowerCase : string -> string)
    (prEnv : NodeProcessEnv) (key : string) :
  (forall k, In k (map_keys prEnv) -> toLowerCase k <> "__proto__") ->
  ((exists k, In k (map_keys prEnv) /\ toLowerCase k = toLowerCase key) ->
   exists k, In k (map_keys prEnv) /\ toLowerCase k = toLowerCase key
     /\ getValue true toLowerCase (constructor_envs true toLowerCase prEnv) key
        = ReadVariable (EnvVariable.Build (toLowerCase key) (prop_read k prEnv)))
  /\ ((forall k, In k (map_keys prEnv) -> toLowerCase k <> toLowerCase key) ->
      getValue true toLowerCase (constructor_envs true toLowerCase prEnv) key
      = match Object_prototype (toLowerCase key) with
        | Some i => ReadInherited i
        | None => ReadUndefined
        end)
  /\ (forall key', toLowerCase key' = toLowerCase key ->
      getValue true toLowerCase (constructor_envs true toLowerCase prEnv) key'
      = getValue true toLowerCase (constructor_envs true toLowerCase prEnv) key).
Proof.
  intros Nk. unfold getValue, envs_get.
  destruct (constructor_envs_get true toLowerCase prEnv (toLowerCase key)) as [H1 H2].
  rewrite (constructor_envs_prototype_None true toLowerCase prEnv Nk).
  split; [|split].
  - intros [k [I E]].
    destruct (map_get (toLowerCase key)
                (Envs.own (constructor_envs true toLowerCase prEnv))) as [x|] eqn:G.
    + destruct (H1 x eq_refl) as [a [Ia [Ea ->]]]. unfold keyName_of in Ea.
      exists a. unfold variable_of, keyName_of. rewrite Ea. auto.
    + exfalso. assert (Np : toLowerCase key <> "__proto__").
      { rewrite <- E. now apply Nk. }
      destruct (H2 Np) as [H2' _]. apply (H2' eq_refl k I E).
  - intros N.
    destruct (map_get (toLowerCase key)
                (Envs.own (constructor_envs true toLowerCase prEnv))) as [x|] eqn:G;
      [|reflexivity].
    exfalso. destruct (H1 x eq_refl) as [a [Ia [Ea _]]]. apply (N a Ia Ea).
  - intros key' E. now rewrite E.
Qed.

Lemma getValue_case_insensitive_witness :
  getValue true toLowerCase_ascii
    (constructor_envs true toLowerCase_ascii [("Path", Some "/usr/bin")]) "PATH"
  = getValue true toLowerCase_ascii
      (constructor_envs true toLowerCase_ascii [("Path", Some "/usr/bin")]) "path"
  /\ getValue true toLowerCase_ascii
       (constructor_envs true toLowerCase_ascii [("Path", Some "/usr/bin")]) "HOME"
     = ReadUndefined.
Proof.
  assert (Nk : forall k, In k (map_keys [("Path", Some "/usr/bin")] : list string) ->
                 toLowerCase_ascii k <> "__proto__").
  { intros k [<-|[]]. discriminate. }
  destruct (getValue_case_insensitive toLowerCase_ascii
              [("Path", Some "/usr/bin")] "path" Nk) as [_ [_ Hsame]].
  destruct (getValue_case_insensitive toLowerCase_ascii
              [("Path", Some "/usr/bin")] "HOME" Nk) as [_ [Hnone _]].
  split.
  - apply Hsame. reflexivity.
  - apply Hnone. intros k [<-|[]]. discriminate.
Defined.

(** X18. [getVariables] returns no [undefined] and no two variables of the
    same name; each variable it returns is named by a key of [process.env]
    (lower-cased on a case-insensitive platform) and holds the value of that
    key. *)
Theorem getVariables_distinct_names (isWindows : bool)
    (toLowerCase : string -> string) (prEnv : NodeProcessEnv) :
  exists variables,
    getVariables (constructor_envs isWindows toLowerCase prEnv)
    = List.map ReadVariable variables
    /\ NoDup (List.map EnvVariable.name variables)
    /\ forall x, In x variables ->
         exists key, In key (map_keys prEnv)
           /\ x = EnvVariable.Build (if isWindows then toLowerCase key else key)
                    (prop_read key prEnv).
Proof.
  set (envs := constructor_envs isWindows toLowerCase prEnv).
  destruct (getVariables_own envs (Object_keys (Envs.own envs))) as [vars [E F]].
  { intros k I. now apply In_Object_keys. }
  assert (P : forall ks xs,
            Forall2 (fun k x => map_get k (Envs.own envs) = Some x) ks xs ->
            List.map EnvVariable.name xs = ks
            /\ forall x, In x xs ->
                 exists key, In key (map_keys prEnv)
                   /\ x = EnvVariable.Build (if isWindows then toLowerCase key else key)
                            (prop_read key prEnv)).
  { induction 1 as [|k x ks xs G _ [IH1 IH2]]; simpl.
    - split; [reflexivity|]. intros x [].
    - destruct (constructor_envs_get isWindows toLowerCase prEnv k) as [H1 _].
      destruct (H1 x G) as [key [Ik [Ek ->]]].
      split.
      + unfold variable_of. simpl. now rewrite Ek, IH1.
      + intros y [<-|Iy]; [exists key; auto|auto]. }
  destruct (P _ _ F) as [Names From].
  exists vars. split; [exact E|]. split; [|exact From].
  rewrite Names. apply NoDup_Object_keys.
  apply constructor_envs_own_wf.
Qed.

Lemma getVariables_distinct_names_witness :
  NoDup ["path"; "home"].
Proof.
  destruct (getVariables_distinct_names true toLowerCase_ascii
              [("Path", Some "/usr/bin"); ("HOME", Some "/root"); ("PATH", None)])
    as [variables [E [N _]]].
  destruct variables as [|x [|y [|z r]]]; try discriminate E.
  injection E as <- <-. exact N.
Defined.
